(** * loopy.tools: structural keys, lazy containers, on-disk memoization, trees

A shallow embedding of the parts of [loopy/tools.py] that carry the
structural-equality and caching logic, together with the statements
proved about them.  Python objects are modelled by a small value
universe, exceptions by an error monad, dictionaries and frozensets by
finite maps and sets. *)

From Stdlib Require Import ZArith String.
From stdpp Require Import base option gmap strings list sorting fin_maps fin_sets.

Local Open Scope Z_scope.

(** ** Python values, exceptions and results *)

(** The exception classes the modelled code raises or lets escape.
    [pytools]'s [NoSuchEntryError] derives from [KeyError] and is caught
    by [except KeyError]; it is identified with [KeyError] here. *)
Inductive exn : Type :=
| KeyError
| ValueError
| AttributeError
| IndexError
| TypeError
| OSError.

Inductive result (A : Type) : Type :=
| Ok (a : A)
| Raise (e : exn).
Arguments Ok {A} a.
Arguments Raise {A} e.

#[global] Instance exn_eq_dec : EqDecision exn.
Proof. solve_decision. Defined.

#[global] Instance result_ret : MRet result := fun _ a => Ok a.
#[global] Instance result_bind : MBind result := fun _ _ f m =>
  match m with
  | Ok a => f a
  | Raise e => Raise e
  end.

(** A fragment of the Python value universe: enough to exhibit how [==]
    behaves on scalars, strings, byte strings and tuples. *)
#[warnings="-register-all"]
Inductive pyval : Type :=
| VNone
| VBool (b : bool)
| VInt (z : Z)
| VStr (s : string)
| VBytes (s : string)
| VTuple (items : list pyval).

Fixpoint pyval_eq_dec (a b : pyval) {struct a} : {a = b} + {a <> b}.
Proof.
  decide equality;
    [ apply bool_dec | apply Z.eq_dec | apply string_dec | apply string_dec
    | apply (List.list_eq_dec pyval_eq_dec) ].
Defined.

#[global] Instance pyval_eq_decision : EqDecision pyval := pyval_eq_dec.

(** Python's [==] on the fragment.  [bool] is a subclass of [int], so
    [True == 1] and [False == 0]; values of unrelated types are unequal;
    tuples compare element by element. *)
Fixpoint py_eq (a b : pyval) {struct a} : bool :=
  match a, b with
  | VNone, VNone => true
  | VBool x, VBool y => bool_decide (x = y)
  | VBool x, VInt y => bool_decide (Z.b2z x = y)
  | VInt x, VBool y => bool_decide (x = Z.b2z y)
  | VInt x, VInt y => bool_decide (x = y)
  | VStr x, VStr y => bool_decide (x = y)
  | VBytes x, VBytes y => bool_decide (x = y)
  | VTuple xs, VTuple ys =>
      (fix go (xs ys : list pyval) {struct xs} : bool :=
         match xs, ys with
         | [], [] => true
         | x :: xs', y :: ys' => py_eq x y && go xs' ys'
         | _, _ => false
         end) xs ys
  | _, _ => false
  end.

(** Truth value of an object, as [if], [not] and [or] use it. *)
Definition truthy (v : pyval) : bool :=
  match v with
  | VNone => false
  | VBool b => b
  | VInt z => negb (z =? 0)
  | VStr s => negb (bool_decide (s = EmptyString))
  | VBytes s => negb (bool_decide (s = EmptyString))
  | VTuple l => negb (bool_decide (l = []))
  end.

(** ** Tree: an immutable rooted tree kept as two persistent maps *)

Module Tree.
Section tree.
Context {T : Type} `{Countable T}.

Record Tree : Type := mkTree {
  _parent_to_children : gmap T (gset T);
  _child_to_parent : gmap T (option T);
}.

Definition from_root (root : T) : Tree :=
  mkTree {[ root := ∅ ]} {[ root := None ]}.

Definition is_a_node (t : Tree) (node : T) : bool :=
  bool_decide (is_Some (_child_to_parent t !! node)).

(** Several call sites pass a value that may be [None] where a node is
    expected ([move_node]'s [new_parent], the parent of the root).
    [None] is not a node identifier, so membership fails for it. *)
Definition is_a_node_opt (t : Tree) (node : option T) : bool :=
  match node with
  | Some n => is_a_node t n
  | None => false
  end.

Definition parent (t : Tree) (node : T) : result (option T) :=
  if is_a_node t node then
    match _child_to_parent t !! node with
    | Some p => Ok p
    | None => Raise KeyError
    end
  else Raise ValueError.

Definition children (t : Tree) (node : T) : result (gset T) :=
  if is_a_node t node then
    match _parent_to_children t !! node with
    | Some cs => Ok cs
    | None => Raise KeyError
    end
  else Raise ValueError.

Definition children_opt (t : Tree) (node : option T) : result (gset T) :=
  match node with
  | Some n => children t n
  | None => Raise ValueError
  end.

Definition is_root (t : Tree) (node : T) : result bool :=
  if is_a_node t node then
    p ← parent t node; Ok (bool_decide (p = None))
  else Raise ValueError.

Definition is_leaf (t : Tree) (node : T) : result bool :=
  if is_a_node t node then
    cs ← children t node; Ok (bool_decide (size cs = 0%nat))
  else Raise ValueError.

Definition nodes (t : Tree) : gset T := dom (_child_to_parent t).

Definition add_node (t : Tree) (node parent : T) : result Tree :=
  if is_a_node t node then Raise ValueError
  else
    match _parent_to_children t !! parent with
    | None => Raise KeyError
    | Some siblings =>
        Ok (mkTree
              (<[node := ∅]>
                 (<[parent := siblings ∪ {[node]}]> (_parent_to_children t)))
              (<[node := Some parent]> (_child_to_parent t)))
    end.

Definition rename_node (t : Tree) (node new_id : T) : result Tree :=
  if negb (is_a_node t node) then Raise ValueError
  else if is_a_node t new_id then Raise ValueError
  else
    parent_ ← parent t node;
    children_ ← children t node;
    let new_child_to_parent :=
      set_fold (fun child m => <[child := Some new_id]> m)
               (<[new_id := parent_]> (delete node (_child_to_parent t)))
               children_ in
    cs ← children t node;
    let new_parent_to_children :=
      <[new_id := cs]> (delete node (_parent_to_children t)) in
    match parent_ with
    | None => Ok (mkTree new_parent_to_children new_child_to_parent)
    | Some p =>
        pcs ← children t p;
        Ok (mkTree
              (<[p := (pcs ∖ {[node]}) ∪ {[new_id]}]>
                 (delete p new_parent_to_children))
              new_child_to_parent)
    end.

Definition move_node (t : Tree) (node : T) (new_parent : option T)
  : result Tree :=
  r ← is_root t node;
  if r && bool_decide (new_parent <> None) then Raise ValueError
  else if negb (is_a_node t node) then Raise ValueError
  else if negb (is_a_node_opt t new_parent) then Raise ValueError
  else
    parent_ ← parent t node;
    siblings ← children_opt t parent_;
    let parents_new_children := siblings ∖ {[node]} in
    ncs ← children_opt t new_parent;
    let new_parents_children := ncs ∪ {[node]} in
    let new_child_to_parent :=
      <[node := new_parent]> (_child_to_parent t) in
    match parent_, new_parent with
    | Some p, Some np =>
        Ok (mkTree
              (<[np := new_parents_children]>
                 (<[p := parents_new_children]> (_parent_to_children t)))
              new_child_to_parent)
    | _, _ => Raise ValueError
    end.

(** [depth] recurses along the parent links; [fuel] bounds the number
    of nested calls, and [None] stands for a recursion that has not
    returned within the bound.  The results [memoize_method] caches are
    those of the recursion, the tree being immutable. *)
Fixpoint depth (fuel : nat) (t : Tree) (node : T) : option (result nat) :=
  match fuel with
  | O => None
  | S fuel' =>
      if negb (is_a_node t node) then Some (Raise ValueError)
      else
        match is_root t node with
        | Raise e => Some (Raise e)
        | Ok true => Some (Ok O)
        | Ok false =>
            match parent t node with
            | Raise e => Some (Raise e)
            | Ok None => Some (Raise ValueError)
            | Ok (Some p) =>
                match depth fuel' t p with
                | None => None
                | Some (Raise e) => Some (Raise e)
                | Some (Ok d) => Some (Ok (S d))
                end
            end
        end
  end.

(** Trees obtained from [from_root] by successful [add_node] calls. *)
Inductive grown : Tree -> Prop :=
| grown_root (root : T) : grown (from_root root)
| grown_add (t t' : Tree) (node parent_ : T) :
    grown t -> add_node t node parent_ = Ok t' -> grown t'.

(** The tree invariant: both maps describe the same node set; exactly
    one node has no parent; every other node has exactly one parent,
    itself a node; and the two maps agree on who is whose child. *)
Record tree_inv (t : Tree) : Prop := {
  inv_keys : dom (_parent_to_children t) = dom (_child_to_parent t);
  inv_one_root :
    exists r, is_root t r = Ok true /\
              forall r', is_root t r' = Ok true -> r' = r;
  inv_one_parent :
    forall n, is_root t n = Ok false ->
      exists p, is_a_node t p = true /\
                forall q, parent t n = Ok (Some q) <-> q = p;
  inv_children_parent :
    forall c p,
      (exists cs, children t p = Ok cs /\ c ∈ cs) <->
      parent t c = Ok (Some p);
}.
End tree.
Arguments Tree T {_ _}.

(** A tree reached through the public operations in which a node has
    been moved under itself. *)
Definition moved_under_itself : result (Tree string) :=
  t ← add_node (from_root "R"%string) "A"%string "R"%string;
  t ← add_node t "X"%string "A"%string;
  move_node t "A"%string (Some "A"%string).

Definition self_parent_tree : Tree string :=
  mkTree (list_to_map [("R"%string, ∅); ("A"%string, {["A"%string; "X"%string]});
                       ("X"%string, ∅)])
         (list_to_map [("R"%string, None); ("A"%string, Some "A"%string);
                       ("X"%string, Some "A"%string)]).

(** What [rename_node] returns when A is renamed to B in it. *)
Definition self_parent_tree_renamed : Tree string :=
  mkTree (list_to_map [("R"%string, ∅); ("X"%string, ∅);
                       ("B"%string, {["A"%string; "X"%string]});
                       ("A"%string, {["X"%string; "B"%string]})])
         (list_to_map [("R"%string, None); ("X"%string, Some "B"%string);
                       ("B"%string, Some "A"%string);
                       ("A"%string, Some "B"%string)]).

(** The tree of the spec's example: root R with the single child A. *)
Definition root_with_child : Tree string :=
  mkTree (list_to_map [("R"%string, {["A"%string]}); ("A"%string, ∅)])
         (list_to_map [("R"%string, None); ("A"%string, Some "R"%string)]).

(** Further example trees: R with the children A and B; the same after
    B was moved under A; R with the single child A renamed to B. *)
Definition two_children : Tree string :=
  mkTree (list_to_map [("R"%string, {["A"%string; "B"%string]});
                       ("A"%string, ∅); ("B"%string, ∅)])
         (list_to_map [("R"%string, None); ("A"%string, Some "R"%string);
                       ("B"%string, Some "R"%string)]).

Definition b_under_a : Tree string :=
  mkTree (list_to_map [("R"%string, {["A"%string]});
                       ("A"%string, {["B"%string]}); ("B"%string, ∅)])
         (list_to_map [("R"%string, None); ("A"%string, Some "R"%string);
                       ("B"%string, Some "A"%string)]).

Definition root_with_child_renamed : Tree string :=
  mkTree (list_to_map [("R"%string, {["B"%string]}); ("B"%string, ∅)])
         (list_to_map [("R"%string, None); ("B"%string, Some "R"%string)]).
End Tree.

(** ** LoopyEqKeyBuilder: keys for equality comparison and for hashing *)

Module EqKey.

(** A class object: its identity (which object it is) and its
    [__name__].  Two distinct classes may carry the same name. *)
Record pyclass : Type := mkClass {
  class_id : positive;
  __name__ : string;
}.

#[global] Instance pyclass_eq_dec : EqDecision pyclass.
Proof. solve_decision. Defined.

(** Code-point order on strings, the order [sorted] uses on field
    names. *)
Definition str_le (a b : string) : Prop := String.leb a b = true.

#[global] Instance str_le_dec : RelDecision str_le.
Proof. intros a b. unfold str_le. apply _. Defined.

(** [dict.__eq__]: same number of entries, and every key of the left
    operand is a key of the right one with an equal value. *)
Definition dict_eq (a b : gmap string pyval) : bool :=
  bool_decide (size a = size b) &&
  forallb (fun kv => match b !! kv.1 with
                     | Some w => py_eq kv.2 w
                     | None => false
                     end) (map_to_list a).

(** The value [key] returns: the encoded class name and the field
    dictionary.  [encode("utf-8")] is injective, so the byte string is
    represented by the name itself. *)
Definition eq_key : Type := string * gmap string pyval.

(** [==] on two such tuples. *)
Definition eq_key_eq (k1 k2 : eq_key) : bool :=
  bool_decide (k1.1 = k2.1) && dict_eq k1.2 k2.2.

Section builder.
(** [LoopyKeyBuilder()] applied to a key: the persistent-hash digest.
    The builder class derives from [pytools]'s [KeyBuilder]; what it
    computes is a parameter here. *)
Context {D : Type} (kb : pyval -> D).

(** Instance state.  [class_] is absent until [update_for_class]
    runs; [hash_key_memo] is the per-instance cache that
    [memoize_method] keeps for [hash_key]. *)
Record LoopyEqKeyBuilder : Type := mkBuilder {
  class_ : option pyclass;
  field_dict : gmap string pyval;
  hash_key_memo : option D;
}.

Definition __init__ : LoopyEqKeyBuilder := mkBuilder None ∅ None.

Definition update_for_class (self : LoopyEqKeyBuilder) (c : pyclass)
  : LoopyEqKeyBuilder :=
  mkBuilder (Some c) (field_dict self) (hash_key_memo self).

Definition update_for_field (self : LoopyEqKeyBuilder)
    (field_name : string) (value : pyval) : LoopyEqKeyBuilder :=
  mkBuilder (class_ self) (<[field_name := value]> (field_dict self))
            (hash_key_memo self).

Definition get_class (self : LoopyEqKeyBuilder) : result pyclass :=
  match class_ self with
  | Some c => Ok c
  | None => Raise AttributeError
  end.

Definition key (self : LoopyEqKeyBuilder) : result eq_key :=
  c ← get_class self; Ok (__name__ c, field_dict self).

(** [sorted(self.field_dict.keys())] *)
Definition sorted_field_names (self : LoopyEqKeyBuilder) : list string :=
  merge_sort str_le (elements (dom (field_dict self))).

(** The tuple handed to the key builder: the encoded class name
    followed by the field values in field-name order. *)
Definition hash_payload (self : LoopyEqKeyBuilder) : result pyval :=
  c ← get_class self;
  Ok (VTuple (VBytes (__name__ c)
              :: omap (fun k => field_dict self !! k)
                      (sorted_field_names self))).

(** [hash_key] under [memoize_method]: the first successful call
    computes and caches the digest, later calls return the cache. *)
Definition hash_key (self : LoopyEqKeyBuilder)
  : result (D * LoopyEqKeyBuilder) :=
  match hash_key_memo self with
  | Some d => Ok (d, self)
  | None =>
      p ← hash_payload self;
      let d := kb p in
      Ok (d, mkBuilder (class_ self) (field_dict self) (Some d))
  end.


(** [a.key() == b.key()] *)
Definition keys_equal (a b : LoopyEqKeyBuilder) : result bool :=
  ka ← key a; kb' ← key b; Ok (eq_key_eq ka kb').

End builder.
Arguments LoopyEqKeyBuilder D : clear implicits.
Arguments mkBuilder {D} _ _ _.
Arguments __init__ {D}.

(** Every declared field compares equal pairwise: same field names,
    and [==] holds between the two values of each field. *)
Definition fields_pairwise_equal (fa fb : gmap string pyval) : Prop :=
  dom fa = dom fb /\
  forall k va vb, fa !! k = Some va -> fb !! k = Some vb -> py_eq va vb = true.



(** Modelled from the spec: the structural hash builder of the base
    class [pytools.persistent_dict.KeyBuilder], which is not part of
    this repository.  A primitive scalar is encoded with its exact
    value and a type tag (integer 1, boolean True and the string "1"
    all differ); an ordered sequence is the ordered concatenation of
    its elements' encodings, preceded by its length.  The cryptographic
    hash applied to this stream is left out: equal streams give equal
    digests, and distinct streams are taken to give distinct ones. *)
Inductive token : Type :=
| TNone
| TBool (b : bool)
| TInt (z : Z)
| TStr (s : string)
| TBytes (s : string)
| TSeq (n : nat).

#[global] Instance token_eq_dec : EqDecision token.
Proof. solve_decision. Defined.

Fixpoint structural_digest (v : pyval) : list token :=
  match v with
  | VNone => [TNone]
  | VBool b => [TBool b]
  | VInt z => [TInt z]
  | VStr s => [TStr s]
  | VBytes s => [TBytes s]
  | VTuple l => TSeq (length l) :: flat_map structural_digest l
  end.

(** Example builders.  Two distinct classes that share a name. *)
Definition Assignment : pyclass := mkClass 1 "Assignment".
Definition Assignment' : pyclass := mkClass 2 "Assignment".

Definition builder_for {D} (c : pyclass) (fields : list (string * pyval))
  : LoopyEqKeyBuilder D :=
  foldl (fun b kv => update_for_field b kv.1 kv.2)
        (update_for_class __init__ c) fields.

Abbreviation digest := (list token).

(** The same two fields recorded in different orders, under the two
    classes. *)
Definition fields_xy : LoopyEqKeyBuilder digest :=
  builder_for Assignment [("x"%string, VInt 1); ("y"%string, VStr "s")].

Definition fields_yx : LoopyEqKeyBuilder digest :=
  builder_for Assignment' [("y"%string, VStr "s"); ("x"%string, VInt 1)].

(** One field holding the integer 1, the boolean True, the integer 2. *)
Definition priority_int : LoopyEqKeyBuilder digest :=
  builder_for Assignment [("priority"%string, VInt 1)].



(** A builder whose digest was requested before a field changed. *)
Definition builder_updated_after_hash : result (LoopyEqKeyBuilder digest) :=
  r ← hash_key structural_digest priority_int;
  Ok (update_for_field r.2 "priority"%string (VInt 2)).



End EqKey.

(** ** Lazily unpickling containers *)

Module Lazy.

(** Pickle payloads are byte strings. *)
Abbreviation bytes := string.

Record _PickledObject : Type := mkPickled { objstring : bytes }.

(** The subclass that also carries the two precomputed keys. *)
Record _PickledObjectWithEqAndPersistentHashKeys : Type := mkPickledWithKeys {
  wk_objstring : bytes;
  eq_key : pyval;
  persistent_hash_key : pyval;
}.

(** What a container slot holds: a pickled wrapper of either class, or
    an ordinary (materialized) object. *)
Inductive item (A : Type) : Type :=
| Pickled (p : _PickledObject)
| PickledWithKeys (p : _PickledObjectWithEqAndPersistentHashKeys)
| Value (v : A).
Arguments Pickled {A} p.
Arguments PickledWithKeys {A} p.
Arguments Value {A} v.

(** [isinstance(x, _PickledObject)] with the bytes it wraps. *)
Definition pickled_bytes {A} (x : item A) : option bytes :=
  match x with
  | Pickled p => Some (objstring p)
  | PickledWithKeys p => Some (wk_objstring p)
  | Value _ => None
  end.

(** Objects have an identity besides their content: every call of
    [pickle.loads] builds a new object.  The heap records the next free
    identity and the byte strings [loads] has been called on. *)
Record obj (V : Type) : Type := mkObj { oid : nat; content : V }.
Arguments mkObj {V} oid content.
Arguments oid {V} o.
Arguments content {V} o.

Record heap : Type := mkHeap {
  next_oid : nat;
  loads_calls : list bytes;
}.

Section codec.
Context {V : Type} (loads : bytes -> V) (dumps : V -> bytes).

(** [_PickledObject.unpickle] *)
Definition unpickle (bs : bytes) (h : heap) : obj V * heap :=
  (mkObj (next_oid h) (loads bs),
   mkHeap (S (next_oid h)) (bs :: loads_calls h)).

(** [_PickledObject.__init__]: a wrapper is copied, anything else is
    pickled. *)
Definition pickle_item (x : item (obj V)) : _PickledObject :=
  match x with
  | Pickled p => mkPickled (objstring p)
  | PickledWithKeys p => mkPickled (wk_objstring p)
  | Value o => mkPickled (dumps (content o))
  end.

(** The value a slot stands for once materialized. *)
Definition materialized (x : item (obj V)) : V :=
  match x with
  | Pickled p => loads (objstring p)
  | PickledWithKeys p => loads (wk_objstring p)
  | Value o => content o
  end.
End codec.

(** [list.__eq__] on two plain lists: equal lengths and pairwise equal
    elements. *)
Fixpoint plain_list_eq {A} (elem_eq : A -> A -> bool) (xs ys : list A) : bool :=
  match xs, ys with
  | [], [] => true
  | x :: xs', y :: ys' => elem_eq x y && plain_list_eq elem_eq xs' ys'
  | _, _ => false
  end.

(** Python index normalisation for [list.__getitem__] and
    [list.__setitem__] with an integer index. *)
Definition norm_index (len : nat) (i : Z) : option nat :=
  if bool_decide (0 <= i < Z.of_nat len) then Some (Z.to_nat i)
  else if bool_decide (- Z.of_nat len <= i < 0)
       then Some (Z.to_nat (i + Z.of_nat len))
       else None.

Module LazilyUnpicklingDict.
Section dict.
Context {K : Type} `{Countable K} {V : Type}.
Context (loads : bytes -> V) (dumps : V -> bytes).

Record t : Type := mk { _map : gmap K (item (obj V)) }.

Definition __getitem__ (self : t) (key : K) (h : heap)
  : result (obj V) * t * heap :=
  match _map self !! key with
  | None => (Raise KeyError, self, h)
  | Some value =>
      match pickled_bytes value with
      | Some bs =>
          let '(value', h') := unpickle loads bs h in
          (Ok value', mk (<[key := Value value']> (_map self)), h')
      | None =>
          match value with
          | Value o => (Ok o, self, h)
          | _ => (Raise TypeError, self, h)
          end
      end
  end.

(** A run of reads, one key after the other; only the container and
    the heap they leave behind are kept. *)
Fixpoint read_all (keys : list K) (self : t) (h : heap) : t * heap :=
  match keys with
  | [] => (self, h)
  | k :: ks =>
      let '(_, self', h') := __getitem__ self k h in read_all ks self' h'
  end.

Definition __setitem__ (self : t) (key : K) (value : item (obj V)) : t :=
  mk (<[key := value]> (_map self)).

Definition __delitem__ (self : t) (key : K) : result t :=
  match _map self !! key with
  | None => Raise KeyError
  | Some _ => Ok (mk (delete key (_map self)))
  end.

Definition __len__ (self : t) : nat := size (_map self).

Definition __getstate__ (self : t) : gmap K _PickledObject :=
  pickle_item dumps <$> _map self.
End dict.
Arguments t K {_ _} V.
End LazilyUnpicklingDict.

Module LazilyUnpicklingList.
Section list.
Context {V : Type}.
Context (loads : bytes -> V) (dumps : V -> bytes).

Record t : Type := mk { _list : list (item (obj V)) }.

Definition __getitem__ (self : t) (key : Z) (h : heap)
  : result (obj V) * t * heap :=
  match norm_index (length (_list self)) key with
  | None => (Raise IndexError, self, h)
  | Some i =>
      match _list self !! i with
      | None => (Raise IndexError, self, h)
      | Some it =>
          match pickled_bytes it with
          | Some bs =>
              let '(it', h') := unpickle loads bs h in
              (Ok it', mk (<[i := Value it']> (_list self)), h')
          | None =>
              match it with
              | Value o => (Ok o, self, h)
              | _ => (Raise TypeError, self, h)
              end
          end
      end
  end.

(** A run of reads, one index after the other. *)
Fixpoint read_all (keys : list Z) (self : t) (h : heap) : t * heap :=
  match keys with
  | [] => (self, h)
  | k :: ks =>
      let '(_, self', h') := __getitem__ self k h in read_all ks self' h'
  end.

Definition __setitem__ (self : t) (key : Z) (value : item (obj V))
  : result t :=
  match norm_index (length (_list self)) key with
  | None => Raise IndexError
  | Some i => Ok (mk (<[i := value]> (_list self)))
  end.

Definition __len__ (self : t) : nat := length (_list self).

Definition __getstate__ (self : t) : list _PickledObject :=
  pickle_item dumps <$> _list self.
End list.
Arguments t V : clear implicits.
End LazilyUnpicklingList.

Module LazilyUnpicklingListWithEqAndPersistentHashing.
Section list_with_eq.
Context {V : Type}.
Context (loads : bytes -> V) (dumps : V -> bytes).

(** The two getters are callables applied to a list entry as it is. *)
Record t : Type := mk {
  _list : list (item (obj V));
  eq_key_getter : item (obj V) -> pyval;
  persistent_hash_key_getter : item (obj V) -> pyval;
}.

Definition _get_eq_key (self : t) (x : item (obj V)) : pyval :=
  match x with
  | PickledWithKeys p => eq_key p
  | _ => eq_key_getter self x
  end.

Definition _get_persistent_hash_key (self : t) (x : item (obj V)) : pyval :=
  match x with
  | PickledWithKeys p => persistent_hash_key p
  | _ => persistent_hash_key_getter self x
  end.

Definition __len__ (self : t) : nat := length (_list self).

(** Inherited from [LazilyUnpicklingList]. *)
Definition __getitem__ (self : t) (key : Z) (h : heap)
  : result (obj V) * t * heap :=
  let '(r, l, h') :=
    LazilyUnpicklingList.__getitem__ loads
      (LazilyUnpicklingList.mk (_list self)) key h in
  (r, mk (LazilyUnpicklingList._list l) (eq_key_getter self)
         (persistent_hash_key_getter self), h').

(** The right operand of [==]. *)
Inductive operand : Type :=
| OtherObject (v : pyval)
| PlainList (l : list (item (obj V)))
| LazyList (l : LazilyUnpicklingList.t V)
| LazyListWithEq (l : t).

Inductive eq_result : Type :=
| NotImplemented
| PyBool (b : bool).

(** The [for a, b in zip(self._list, other)] loop. *)
Fixpoint eq_loop (self : t) (xs ys : list (item (obj V))) : bool :=
  match xs, ys with
  | a :: xs', b :: ys' =>
      if negb (py_eq (_get_eq_key self a) (_get_eq_key self b))
      then false
      else eq_loop self xs' ys'
  | _, _ => true
  end.

Definition __eq__ (self : t) (other : operand) : eq_result :=
  let compare other_list :=
    if negb (bool_decide (__len__ self = length other_list))
    then PyBool false
    else PyBool (eq_loop self (_list self) other_list) in
  match other with
  | OtherObject _ => NotImplemented
  | PlainList l => compare l
  | LazyList l => compare (LazilyUnpicklingList._list l)
  | LazyListWithEq l => compare (_list l)
  end.

(** [__getstate__]: every entry becomes a pickled wrapper carrying
    its keys; the getters travel along. *)
Definition __getstate__ (self : t)
  : list _PickledObjectWithEqAndPersistentHashKeys :=
  (fun val =>
     mkPickledWithKeys (objstring (pickle_item dumps val))
                       (_get_eq_key self val)
                       (_get_persistent_hash_key self val))
    <$> _list self.

(** Unpickling restores the instance attributes from the state. *)
Definition __setstate__ (self : t)
    (state : list _PickledObjectWithEqAndPersistentHashKeys) : t :=
  mk (PickledWithKeys <$> state) (eq_key_getter self)
     (persistent_hash_key_getter self).

(** Modelled after the spec's words: [==] on the fully materialized
    plain sequences, elements compared by their own equality. *)
Definition materialized_eq (elem_eq : V -> V -> bool)
    (xs ys : list (item (obj V))) : bool :=
  plain_list_eq elem_eq (materialized loads <$> xs) (materialized loads <$> ys).

(** The list an operand is compared through, when it has one. *)
Definition operand_list (other : operand) : option (list (item (obj V))) :=
  match other with
  | OtherObject _ => None
  | PlainList l => Some l
  | LazyList l => Some (LazilyUnpicklingList._list l)
  | LazyListWithEq l => Some (_list l)
  end.

(** A list entry is well formed for the key function [k] when it is a
    materialized value, or a pickled wrapper whose stored equality key
    is the key of the value it unpickles to, which is how
    [__getstate__] writes wrappers. *)
Definition entry_wf (k : V -> pyval) (x : item (obj V)) : Prop :=
  match x with
  | Value _ => True
  | PickledWithKeys p => eq_key p = k (loads (wk_objstring p))
  | Pickled _ => False
  end.
End list_with_eq.
Arguments t V : clear implicits.
Arguments operand V : clear implicits.

(** Example instances over string-valued elements, pickled by the
    identity codec.  The two lists hold equal elements but were built
    with different [eq_key_getter]s. *)
Definition getter_by_text (x : item (obj string)) : pyval :=
  match x with
  | Value o => VStr (content o)
  | _ => VNone
  end.

Definition getter_by_length (x : item (obj string)) : pyval :=
  match x with
  | Value o => VInt (Z.of_nat (String.length (content o)))
  | _ => VNone
  end.

Definition insns_by_text : t string :=
  mk [Value (mkObj 0 "a = b"%string)] getter_by_text getter_by_text.

Definition insns_by_length : t string :=
  mk [Value (mkObj 1 "a = b"%string)] getter_by_length getter_by_length.

(** [insns_by_length] after a pickle round trip: all entries are
    wrappers carrying the keys its own getters produced. *)
Definition insns_by_length_unpickled : t string :=
  __setstate__ insns_by_length (__getstate__ id insns_by_length).

Definition insns_by_text_unpickled : t string :=
  __setstate__ insns_by_text (__getstate__ id insns_by_text).

(** A list keyed by length that holds another instruction of the same
    length. *)
Definition other_insn_by_length : t string :=
  mk [Value (mkObj 2 "c = d"%string)] getter_by_length getter_by_length.

Definition heap0 : heap := mkHeap 2 [].
End LazilyUnpicklingListWithEqAndPersistentHashing.

(** Example containers over string-valued elements and the identity
    codec: a dictionary and a list with one pickled and one materialized
    slot each. *)
Definition example_dict : LazilyUnpicklingDict.t string string :=
  LazilyUnpicklingDict.mk
    (list_to_map [("k"%string, Pickled (mkPickled "a = b"));
                  ("m"%string, Value (mkObj 0 "c = d"%string))]).

Definition example_list : LazilyUnpicklingList.t string :=
  LazilyUnpicklingList.mk
    [Value (mkObj 0 "c = d"%string); Pickled (mkPickled "a = b")].

Definition example_heap : heap := mkHeap 1 [].

End Lazy.

(** ** Optional: a wrapper for an optionally present object *)

Module Optional.

(** [__slots__ = ("_value", "has_value")]; [_value] is only assigned
    when a value is present. *)
Record t : Type := mk {
  has_value : bool;
  _value : option pyval;
}.

(** [Optional(value=_no_value)]; the sentinel default is [None] here. *)
Definition __init__ (value : option pyval) : t :=
  match value with
  | Some v => mk true (Some v)
  | None => mk false None
  end.

(** The [value] property. *)
Definition value (self : t) : result pyval :=
  if negb (has_value self) then Raise AttributeError
  else match _value self with
       | Some v => Ok v
       | None => Raise AttributeError
       end.

(** Any object that may stand to the right of [==]: an [Optional], or an
    object of another type given by its attributes. *)
Inductive pyobject : Type :=
| OptionalObj (o : t)
| AttrObj (attrs : gmap string pyval).

Definition hasattr (x : pyobject) (name : string) : bool :=
  match x with
  | OptionalObj o =>
      if bool_decide (name = "has_value"%string) then true
      else if bool_decide (name = "value"%string) then has_value o
      else if bool_decide (name = "_value"%string)
           then bool_decide (is_Some (_value o))
           else false
  | AttrObj attrs => bool_decide (is_Some (attrs !! name))
  end.

Definition getattr (x : pyobject) (name : string) : result pyval :=
  match x with
  | OptionalObj o =>
      if bool_decide (name = "has_value"%string) then Ok (VBool (has_value o))
      else if bool_decide (name = "value"%string) then value o
      else if bool_decide (name = "_value"%string)
           then match _value o with
                | Some v => Ok v
                | None => Raise AttributeError
                end
           else Raise AttributeError
  | AttrObj attrs =>
      match attrs !! name with
      | Some v => Ok v
      | None => Raise AttributeError
      end
  end.

Definition __eq__ (self : t) (other : pyobject) : result pyval :=
  if negb (has_value self) then
    hv ← getattr other "has_value"; Ok (VBool (negb (truthy hv)))
  else
    hv ← getattr other "has_value";
    if truthy hv then
      a ← value self; b ← getattr other "value"; Ok (VBool (py_eq a b))
    else Ok (VBool false).

(** [__getstate__]: the sentinel for an empty wrapper ([None] here), a
    one-element tuple otherwise. *)
Definition __getstate__ (self : t) : result (option pyval) :=
  if negb (has_value self) then Ok None
  else match _value self with
       | Some v => Ok (Some v)
       | None => Raise AttributeError
       end.

(** [__setstate__]: the sentinel assigns [has_value] only, a tuple
    assigns both slots. *)
Definition __setstate__ (self : t) (state : option pyval) : t :=
  match state with
  | None => mk false (_value self)
  | Some v => mk true (Some v)
  end.

(** The object [pickle.loads] creates before it calls [__setstate__]:
    no slot assigned. *)
Definition blank : t := mk false None.

End Optional.

(** ** memoize_on_disk *)

Module Memoize.

(** [(func.__qualname__, func.__name__, args, kwargs)] *)
Record cache_key : Type := mkKey {
  ck_qualname : string;
  ck_name : string;
  ck_args : list pyval;
  ck_kwargs : gmap string pyval;
}.

#[global] Instance cache_key_eq_dec : EqDecision cache_key.
Proof. solve_decision. Defined.

(** What a call of the wrapper does to the outside, in order. *)
Inductive event : Type :=
| EvLookup (k : cache_key)
| EvStoreIfNotPresent (k : cache_key) (v : pyval)
| EvCall (args : list pyval) (kwargs : gmap string pyval)
| EvLogReturnedFromDisk
| EvLogNotPresentOnDisk
| EvProcessLogger.

Definition is_call (e : event) : bool :=
  match e with EvCall _ _ => true | _ => false end.

Definition is_store_access (e : event) : bool :=
  match e with
  | EvLookup _ | EvStoreIfNotPresent _ _ => true
  | _ => false
  end.

Definition count_calls (tr : list event) : nat := length (filter is_call tr).

(** The decorated function object. *)
Record pyfunction : Type := mkFunction {
  __qualname__ : string;
  __name__ : string;
  __call__ : list pyval -> gmap string pyval -> result pyval;
}.

Section wrapper.
(** [transform_cache] is a [pytools] [WriteOncePersistentDict]; its two
    operations used here are parameters.  Each returns its outcome and
    the store's next state. *)
Context {S : Type}.
Context (cache_getitem : S -> cache_key -> result pyval * S).
Context (cache_store_if_not_present :
           S -> cache_key -> pyval -> result () * S).
Context (func : pyfunction).

(** The process state a call can observe or change. *)
Record world : Type := mkWorld {
  CACHING_ENABLED : bool;
  transform_cache : S;
  trace : list event;
}.

Definition log (e : event) (w : world) : world :=
  mkWorld (CACHING_ENABLED w) (transform_cache w) (trace w ++ [e]).

Definition set_cache (s : S) (w : world) : world :=
  mkWorld (CACHING_ENABLED w) s (trace w).

(** The call of [func] on the positional and keyword arguments. *)
Definition call_func (args : list pyval) (kwargs : gmap string pyval)
    (w : world) : result pyval * world :=
  (__call__ func args kwargs, log (EvCall args kwargs) w).

Definition wrapper (args : list pyval) (kwargs : gmap string pyval)
    (w : world) : result pyval * world :=
  if negb (CACHING_ENABLED w) then call_func args kwargs w
  else
    (* kwargs.pop("_no_memoize_on_disk", False) *)
    let flag := default (VBool false) (kwargs !! "_no_memoize_on_disk"%string) in
    let kwargs := delete "_no_memoize_on_disk"%string kwargs in
    if truthy flag then call_func args kwargs w
    else
      let cache_key := mkKey (__qualname__ func) (__name__ func) args kwargs in
      let '(r, s) := cache_getitem (transform_cache w) cache_key in
      let w := set_cache s (log (EvLookup cache_key) w) in
      match r with
      | Ok result => (Ok result, log EvLogReturnedFromDisk w)
      | Raise KeyError =>
          let w := log EvProcessLogger (log EvLogNotPresentOnDisk w) in
          let '(r, w) := call_func args kwargs w in
          match r with
          | Raise e => (Raise e, w)
          | Ok result =>
              let '(sr, s) :=
                cache_store_if_not_present (transform_cache w) cache_key result in
              let w := set_cache s (log (EvStoreIfNotPresent cache_key result) w) in
              match sr with
              | Ok _ => (Ok result, w)
              | Raise e => (Raise e, w)
              end
          end
      | Raise e => (Raise e, w)
      end.

End wrapper.
Arguments world S : clear implicits.
Arguments mkWorld {S} _ _ _.

(** A store that works: an in-memory write-once dictionary. *)
Definition dict_store : Type := list (cache_key * pyval).

Definition dict_lookup (s : dict_store) (k : cache_key) : option pyval :=
  snd <$> find (fun kv => bool_decide (kv.1 = k)) s.

Definition dict_getitem (s : dict_store) (k : cache_key)
  : result pyval * dict_store :=
  match dict_lookup s k with
  | Some v => (Ok v, s)
  | None => (Raise KeyError, s)
  end.

Definition dict_store_if_not_present (s : dict_store) (k : cache_key)
    (v : pyval) : result () * dict_store :=
  match dict_lookup s k with
  | Some _ => (Ok (), s)
  | None => (Ok (), (k, v) :: s)
  end.

(** A store whose directory cannot be read or written: both operations
    fail with [OSError]. *)
Definition unreachable_getitem (s : ()) (k : cache_key) : result pyval * () :=
  (Raise OSError, s).

Definition unreachable_store_if_not_present (s : ()) (k : cache_key)
    (v : pyval) : result () * () :=
  (Raise OSError, s).

(** A store that can be read but not written. *)
Definition readonly_store_if_not_present (s : dict_store) (k : cache_key)
    (v : pyval) : result () * dict_store :=
  (Raise OSError, s).

(** [stored_key == key] on two cache keys: tuples of the two names,
    the positional arguments and the keyword arguments. *)
Definition cache_key_eq (k1 k2 : cache_key) : bool :=
  bool_decide (ck_qualname k1 = ck_qualname k2) &&
  bool_decide (ck_name k1 = ck_name k2) &&
  py_eq (VTuple (ck_args k1)) (VTuple (ck_args k2)) &&
  EqKey.dict_eq (ck_kwargs k1) (ck_kwargs k2).

Module WriteOncePersistentDict.
Section store.
(** [key_builder_t()] applied to a cache key: the digest the store
    files the key under. *)
Context (key_builder : cache_key -> string).

(** Modelled from the spec: the persisted store, [pytools]'
    [WriteOncePersistentDict], which is not among this repository's
    files: a write-once key-value store addressed by the digest of the
    key.  An entry keeps the key it was stored under next to the
    value. *)
Definition t : Type := gmap string (cache_key * pyval).

(** Modelled from the spec: the store's lookup.  The key is absent when
    there is no entry at its digest, and also when the entry there was
    stored under a key that is not equal to it (a digest collision);
    both are reported with [KeyError]. *)
Definition __getitem__ (s : t) (key : cache_key) : result pyval * t :=
  match s !! key_builder key with
  | Some (stored_key, value) =>
      if cache_key_eq stored_key key then (Ok value, s)
      else (Raise KeyError, s)
  | None => (Raise KeyError, s)
  end.

(** Modelled from the spec: the store-only-if-absent write.  An entry
    already at the key's digest is never overwritten. *)
Definition store_if_not_present (s : t) (key : cache_key) (value : pyval)
  : result () * t :=
  match s !! key_builder key with
  | Some _ => (Ok (), s)
  | None => (Ok (), <[key_builder key := (key, value)]> s)
  end.

(** The entry at the key's digest, if there is one, was stored under
    an equal key. *)
Definition no_collision (s : t) (key : cache_key) : bool :=
  match s !! key_builder key with
  | Some (stored_key, _) => cache_key_eq stored_key key
  | None => true
  end.
End store.
End WriteOncePersistentDict.

(** The caller passed a true [_no_memoize_on_disk]. *)
Definition bypass_requested (kwargs : gmap string pyval) : bool :=
  truthy (default (VBool false) (kwargs !! "_no_memoize_on_disk"%string)).

(** An example of a decorated function: doubles its integer argument. *)
Definition double : pyfunction :=
  mkFunction "double" "double"
    (fun args kwargs =>
       match args with
       | [VInt z] => Ok (VInt (2 * z))
       | _ => Raise TypeError
       end).

(** Two calls in a row on the in-memory store, from an empty store. *)
Definition world0 : world dict_store := mkWorld true [] [].

Definition first_call : result pyval * world dict_store :=
  wrapper dict_getitem dict_store_if_not_present double [VInt 3] ∅ world0.

Definition second_call : result pyval * world dict_store :=
  wrapper dict_getitem dict_store_if_not_present double [VInt 3] ∅
          first_call.2.

(** A key builder that gives every key the same digest. *)
Definition constant_key_builder (k : cache_key) : string := "0".

(** The wrapper of [double] over a store that uses that key builder. *)
Definition colliding_wrapper :=
  wrapper (WriteOncePersistentDict.__getitem__ constant_key_builder)
          (WriteOncePersistentDict.store_if_not_present constant_key_builder)
          double.

Definition empty_world : world WriteOncePersistentDict.t := mkWorld true ∅ [].

(** Three calls in a row from an empty store: on 4, then twice on 3. *)
Definition colliding_calls : result pyval * world WriteOncePersistentDict.t :=
  let w1 := (colliding_wrapper [VInt 4] ∅ empty_world).2 in
  let w2 := (colliding_wrapper [VInt 3] ∅ w1).2 in
  colliding_wrapper [VInt 3] ∅ w2.

(** Two calls in a row on an argument [double] rejects. *)
Definition failing_calls : result pyval * world WriteOncePersistentDict.t :=
  let w1 := (colliding_wrapper [VNone] ∅ empty_world).2 in
  colliding_wrapper [VNone] ∅ w1.

(** A decorated function with a fixed signature, [def double(x)]: any
    keyword argument is a [TypeError]. *)
Definition double_fixed : pyfunction :=
  mkFunction "double" "double"
    (fun args kwargs =>
       if bool_decide (kwargs = ∅) then
         match args with
         | [VInt z] => Ok (VInt (2 * z))
         | _ => Raise TypeError
         end
       else Raise TypeError).

End Memoize.

(** ** Text helpers *)

Module Text.









End Text.

(** * Properties *)

#[local] Set Warnings "-clear-no-such-hyp".

Lemma bind_Ok_inv {A B} (m : result A) (f : A -> result B) (y : B) :
  (x ← m; f x) = Ok y -> exists x, m = Ok x /\ f x = Ok y.
Proof. destruct m as [x|e]; simpl; [eauto|done]. Qed.

(** ** Tree *)

Section tree_facts.
Import Tree.
Context {T : Type} `{Countable T}.
Implicit Types (t : Tree T) (n c p : T).

Lemma is_a_node_spec t n :
  is_a_node t n = true <-> is_Some (_child_to_parent t !! n).
Proof. unfold is_a_node. by rewrite bool_decide_eq_true. Qed.

Lemma is_a_node_false t n :
  is_a_node t n = false <-> _child_to_parent t !! n = None.
Proof.
  unfold is_a_node. rewrite bool_decide_eq_false, eq_None_not_Some. done.
Qed.

Lemma parent_Ok t n (p : option T) :
  parent t n = Ok p <-> _child_to_parent t !! n = Some p.
Proof.
  unfold parent. destruct (is_a_node t n) eqn:E.
  - apply is_a_node_spec in E as [q Hq]. rewrite Hq. naive_solver.
  - apply is_a_node_false in E. rewrite E. naive_solver.
Qed.

Lemma children_Ok t n (cs : gset T) :
  children t n = Ok cs <->
  is_Some (_child_to_parent t !! n) /\ _parent_to_children t !! n = Some cs.
Proof.
  unfold children. destruct (is_a_node t n) eqn:E.
  - apply is_a_node_spec in E.
    destruct (_parent_to_children t !! n); naive_solver.
  - apply is_a_node_false in E. rewrite E. split; [done|].
    intros [[? ?] _]. done.
Qed.

Lemma is_root_Ok t n (b : bool) :
  is_root t n = Ok b <->
  exists q : option T, _child_to_parent t !! n = Some q /\ b = bool_decide (q = None).
Proof.
  unfold is_root, parent. destruct (is_a_node t n) eqn:E.
  - apply is_a_node_spec in E as [q Hq]. rewrite Hq. simpl. naive_solver.
  - apply is_a_node_false in E. rewrite E. naive_solver.
Qed.

Lemma tree_inv_raw t :
  tree_inv t <->
  dom (_parent_to_children t) = dom (_child_to_parent t) /\
  (exists r, _child_to_parent t !! r = Some None /\
             forall r', _child_to_parent t !! r' = Some None -> r' = r) /\
  (forall c p, (exists cs, _parent_to_children t !! p = Some cs /\ c ∈ cs) <->
               _child_to_parent t !! c = Some (Some p)).
Proof.
  split.
  - intros [Hk [r [Hr Hu]] Hp Hc]. split; [done|]. split.
    + exists r. apply is_root_Ok in Hr as [p [Hp1 Hp2]].
      symmetry in Hp2. apply bool_decide_eq_true in Hp2. subst p.
      split; [done|]. intros r' Hr'. apply Hu. apply is_root_Ok.
      exists None. by rewrite bool_decide_eq_true_2.
    + intros c p. rewrite <- parent_Ok, <- Hc. split.
      * intros [cs [Hcs Hin]]. exists cs. split; [|done]. apply children_Ok.
        split; [|done]. apply elem_of_dom. rewrite <- Hk. apply elem_of_dom. eauto.
      * intros [cs [Hcs Hin]]. apply children_Ok in Hcs. naive_solver.
  - intros (Hk & [r [Hr Hu]] & Hc).
    assert (Hc' : forall c p,
      (exists cs, children t p = Ok cs /\ c ∈ cs) <-> parent t c = Ok (Some p)).
    { intros c p. rewrite parent_Ok, <- Hc. split.
      - intros [cs [Hcs Hin]]. apply children_Ok in Hcs. naive_solver.
      - intros [cs [Hcs Hin]]. exists cs. split; [|done]. apply children_Ok.
        split; [|done]. apply elem_of_dom. rewrite <- Hk. apply elem_of_dom. eauto. }
    split; [done| | |done].
    + exists r. split.
      * apply is_root_Ok. exists None. by rewrite bool_decide_eq_true_2.
      * intros r' Hr'. apply Hu. apply is_root_Ok in Hr' as [p [Hp1 Hp2]].
        symmetry in Hp2. apply bool_decide_eq_true in Hp2. by subst p.
    + intros n Hn. apply is_root_Ok in Hn as [p [Hp1 Hp2]].
      symmetry in Hp2. apply bool_decide_eq_false in Hp2.
      destruct p as [p|]; [|done]. exists p. split.
      * apply is_a_node_spec. apply elem_of_dom. rewrite <- Hk.
        apply Hc in Hp1 as [cs [Hcs _]]. apply elem_of_dom. eauto.
      * intros q. rewrite parent_Ok, Hp1. naive_solver.
Qed.

Lemma add_node_inv t node par t' :
  tree_inv t -> add_node t node par = Ok t' -> tree_inv t'.
Proof.
  rewrite !tree_inv_raw. intros (Hk & [r [Hr Hu]] & Hc) Hadd.
  unfold add_node in Hadd.
  destruct (is_a_node t node) eqn:En; [done|].
  apply is_a_node_false in En.
  destruct (_parent_to_children t !! par) as [sib|] eqn:Ep; [|done].
  injection Hadd as <-. simpl.
  assert (Hpar : par ∈ dom (_child_to_parent t)).
  { rewrite <- Hk. apply elem_of_dom. eauto. }
  assert (Hne : par <> node).
  { intros ->. apply elem_of_dom in Hpar as [? ?]. congruence. }
  assert (Hnp : _parent_to_children t !! node = None).
  { apply not_elem_of_dom. rewrite Hk. by apply not_elem_of_dom. }
  split; [|split].
  - rewrite !dom_insert_L, Hk. set_solver.
  - exists r. split.
    + rewrite lookup_insert_ne; [done|congruence].
    + intros r'. rewrite lookup_insert. case_decide; [done|]. apply Hu.
  - intros c p.
    destruct (decide (p = node)) as [->|Hpn];
      [|destruct (decide (p = par)) as [->|Hpp]];
      (destruct (decide (c = node)) as [->|Hcn]);
      rewrite ?lookup_insert_eq, ?(lookup_insert_ne _ node), ?lookup_insert_eq,
        ?(lookup_insert_ne _ par) by congruence.
    + split; [intros [cs [[= <-] Hin]]; set_solver | congruence].
    + split; [intros [cs [[= <-] Hin]]; set_solver |].
      intros Hcp. apply Hc in Hcp as [cs [Hcs _]]. congruence.
    + split; [done|]. intros _. exists (sib ∪ {[node]}). set_solver.
    + rewrite <- Hc, Ep. split.
      * intros [cs [[= <-] Hin]]. exists sib. set_solver.
      * intros [cs [[= <-] Hin]]. exists (sib ∪ {[node]}). set_solver.
    + split; [|congruence]. intros Hex. apply Hc in Hex. congruence.
    + apply Hc.
Qed.

Lemma move_node_Ok t node new_parent t' :
  move_node t node new_parent = Ok t' ->
  exists p np sib ncs,
    new_parent = Some np /\
    _child_to_parent t !! node = Some (Some p) /\
    is_Some (_child_to_parent t !! np) /\
    _parent_to_children t !! p = Some sib /\
    _parent_to_children t !! np = Some ncs /\
    t' = mkTree (<[np := ncs ∪ {[node]}]>
                   (<[p := sib ∖ {[node]}]> (_parent_to_children t)))
                (<[node := Some np]> (_child_to_parent t)).
Proof.
  unfold move_node. intros Hm.
  destruct (is_root t node) as [r|] eqn:Er; [simpl in Hm|done].
  apply is_root_Ok in Er as [q [Hq ->]].
  destruct new_parent as [np|]; simpl in Hm.
  - destruct q as [p|]; simpl in Hm; [|done].
    destruct (is_a_node t node); simpl in Hm; [|done].
    destruct (is_a_node t np) eqn:Enp; simpl in Hm; [|done].
    apply is_a_node_spec in Enp.
    assert (Hpar : parent t node = Ok (Some p)) by by apply parent_Ok.
    rewrite Hpar in Hm. simpl in Hm.
    destruct (children t p) as [sib|] eqn:Es; simpl in Hm; [|done].
    destruct (children t np) as [ncs|] eqn:En; simpl in Hm; [|done].
    apply children_Ok in Es as [_ Es]. apply children_Ok in En as [_ En].
    injection Hm as <-. by exists p, np, sib, ncs.
  - rewrite andb_false_r in Hm.
    destruct (is_a_node t node); simpl in Hm; done.
Qed.

Lemma move_node_inv t node new_parent t' :
  tree_inv t -> move_node t node new_parent = Ok t' -> tree_inv t'.
Proof.
  rewrite !tree_inv_raw. intros (Hk & [r [Hr Hu]] & Hc) Hm.
  apply move_node_Ok in Hm
    as (p & np & sib & ncs & -> & Hn & Hnp & Hs & Hncs & ->). simpl.
  assert (Hrn : r <> node) by congruence.
  split; [|split].
  - rewrite !dom_insert_L.
    assert (p ∈ dom (_parent_to_children t)) by (apply elem_of_dom; eauto).
    assert (np ∈ dom (_parent_to_children t)) by (apply elem_of_dom; eauto).
    assert (node ∈ dom (_child_to_parent t)) by (apply elem_of_dom; eauto).
    rewrite <- Hk. rewrite <- Hk in H2. set_solver.
  - exists r. split.
    + by rewrite lookup_insert_ne.
    + intros r'. rewrite lookup_insert. case_decide; [done|]. apply Hu.
  - intros c q.
    destruct (decide (q = np)) as [->|Hq1];
      [|destruct (decide (q = p)) as [->|Hq2]];
      (destruct (decide (c = node)) as [->|Hcn]);
      rewrite ?lookup_insert_eq, ?(lookup_insert_ne _ np), ?lookup_insert_eq,
        ?(lookup_insert_ne _ p), ?(lookup_insert_ne _ node) by congruence.
    + split; [done|]. intros _. exists (ncs ∪ {[node]}). set_solver.
    + rewrite <- Hc, Hncs. split.
      * intros [cs [[= <-] Hin]]. exists ncs. set_solver.
      * intros [cs [[= <-] Hin]]. exists (ncs ∪ {[node]}). set_solver.
    + split; [intros [cs [[= <-] Hin]]; set_solver | congruence].
    + rewrite <- Hc, Hs. split.
      * intros [cs [[= <-] Hin]]. exists sib. set_solver.
      * intros [cs [[= <-] Hin]]. exists (sib ∖ {[node]}). set_solver.
    + split; [|congruence]. intros Hex. apply Hc in Hex. congruence.
    + apply Hc.
Qed.

Lemma set_fold_insert_lookup (X : gset T) (m : gmap T (option T)) v k :
  set_fold (fun c m' => <[c := v]> m') m X !! k =
  if decide (k ∈ X) then Some v else m !! k.
Proof.
  generalize X. clear X.
  refine (set_fold_ind_L
    (fun r (Y : gset T) => r !! k = if decide (k ∈ Y) then Some v else m !! k)
    _ _ _ _).
  - by rewrite decide_False by set_solver.
  - intros x Y r Hx IH. rewrite lookup_insert.
    destruct (decide (x = k)) as [->|Hxk].
    + by rewrite decide_True by set_solver.
    + rewrite IH. destruct (decide (k ∈ Y)).
      * by rewrite decide_True by set_solver.
      * by rewrite decide_False by set_solver.
Qed.

Lemma rename_node_Ok t node new_id t' :
  rename_node t node new_id = Ok t' ->
  exists par cs,
    _child_to_parent t !! node = Some par /\
    _child_to_parent t !! new_id = None /\
    _parent_to_children t !! node = Some cs /\
    let c2p := set_fold (fun child m => <[child := Some new_id]> m)
                 (<[new_id := par]> (delete node (_child_to_parent t))) cs in
    let p2c := <[new_id := cs]> (delete node (_parent_to_children t)) in
    match par with
    | None => t' = mkTree p2c c2p
    | Some p =>
        exists pcs, _parent_to_children t !! p = Some pcs /\
          t' = mkTree (<[p := (pcs ∖ {[node]}) ∪ {[new_id]}]> (delete p p2c)) c2p
    end.
Proof.
  unfold rename_node. intros Hr.
  destruct (is_a_node t node) eqn:En; simpl in Hr; [|done].
  destruct (is_a_node t new_id) eqn:Ei; simpl in Hr; [done|].
  apply is_a_node_false in Ei.
  destruct (parent t node) as [par|] eqn:Ep; simpl in Hr; [|done].
  apply parent_Ok in Ep.
  destruct (children t node) as [cs|] eqn:Ec; simpl in Hr; [|done].
  apply children_Ok in Ec as [_ Ec].
  exists par, cs. split; [done|]. split; [done|]. split; [done|].
  destruct par as [p|]; simpl.
  - destruct (children t p) as [pcs|] eqn:Epc; simpl in Hr; [|done].
    apply children_Ok in Epc as [_ Epc]. injection Hr as <-. by exists pcs.
  - by injection Hr as <-.
Qed.


Lemma rename_c2p_lookup (m : gmap T (option T)) (cs : gset T)
    (node new_id : T) (par : option T) k :
  set_fold (fun child m' => <[child := Some new_id]> m')
           (<[new_id := par]> (delete node m)) cs !! k =
  if decide (k ∈ cs) then Some (Some new_id)
  else if decide (k = new_id) then Some par
  else if decide (k = node) then None
  else m !! k.
Proof.
  rewrite set_fold_insert_lookup. destruct (decide (k ∈ cs)); [done|].
  destruct (decide (k = new_id)) as [->|Hi]; [by rewrite lookup_insert_eq|].
  rewrite lookup_insert_ne by done.
  destruct (decide (k = node)) as [->|Hn]; [by rewrite lookup_delete_eq|].
  by rewrite lookup_delete_ne.
Qed.

Lemma rename_p2c_lookup (m : gmap T (gset T)) (cs : gset T)
    (node new_id : T) k :
  <[new_id := cs]> (delete node m) !! k =
  if decide (k = new_id) then Some cs
  else if decide (k = node) then None
  else m !! k.
Proof.
  destruct (decide (k = new_id)) as [->|Hi]; [by rewrite lookup_insert_eq|].
  rewrite lookup_insert_ne by done.
  destruct (decide (k = node)) as [->|Hn]; [by rewrite lookup_delete_eq|].
  by rewrite lookup_delete_ne.
Qed.

Lemma rename_p2c_parent_lookup (m : gmap T (gset T)) (cs s : gset T)
    (node new_id p : T) k :
  <[p := s]> (delete p (<[new_id := cs]> (delete node m))) !! k =
  if decide (k = p) then Some s
  else if decide (k = new_id) then Some cs
  else if decide (k = node) then None
  else m !! k.
Proof.
  destruct (decide (k = p)) as [->|Hp]; [by rewrite lookup_insert_eq|].
  rewrite lookup_insert_ne, lookup_delete_ne by done.
  apply rename_p2c_lookup.
Qed.

Lemma rename_node_inv t node new_id t' :
  tree_inv t ->
  parent t node <> Ok (Some node) ->
  rename_node t node new_id = Ok t' -> tree_inv t'.
Proof.
  rewrite !tree_inv_raw, parent_Ok. intros (Hk & [r [Hr Hu]] & Hc) Hself Hren.
  apply rename_node_Ok in Hren as (par & cs & Hn & Hi & Hcs & Ht').
  assert (Hk' : forall k, is_Some (_parent_to_children t !! k) <->
                          is_Some (_child_to_parent t !! k)).
  { intros k. by rewrite <- !elem_of_dom, Hk. }
  assert (Hin : forall c, c ∈ cs <-> _child_to_parent t !! c = Some (Some node)).
  { intros c. rewrite <- Hc. split; [eauto|]. intros [s [Hs ?]]. congruence. }
  assert (Hncs : node ∉ cs) by (rewrite Hin; congruence).
  assert (Hics : new_id ∉ cs) by (rewrite Hin; congruence).
  assert (Hni : node <> new_id) by congruence.
  assert (Hip : _parent_to_children t !! new_id = None).
  { apply eq_None_not_Some. rewrite Hk'. by rewrite Hi; intros [? ?]. }
  assert (Hnochild : forall c q,
            _child_to_parent t !! c = Some (Some q) -> q <> new_id).
  { intros c q Hcq ->. apply Hc in Hcq as [s [Hs _]]. congruence. }
  destruct par as [p|].
  - destruct Ht' as (pcs & Hpcs & ->). simpl.
    assert (Hpn : p <> node) by congruence.
    assert (Hpi : p <> new_id) by congruence.
    assert (Hpin : forall c, c ∈ pcs <-> _child_to_parent t !! c = Some (Some p)).
    { intros c. rewrite <- Hc. split; [eauto|]. intros [s [Hs ?]]. congruence. }
    assert (Hrn : r <> node) by congruence.
    assert (Hri : r <> new_id) by congruence.
    split; [|split].
    + apply set_eq. intros k.
      rewrite !elem_of_dom, rename_c2p_lookup, rename_p2c_parent_lookup.
      destruct (decide (k ∈ cs)) as [Hkc|Hkc].
      * apply Hin in Hkc.
        destruct (decide (k = p)); [split; eauto|].
        destruct (decide (k = new_id)); [split; eauto|].
        destruct (decide (k = node)); [congruence|].
        rewrite Hk', Hkc. split; eauto.
      * destruct (decide (k = p)) as [->|].
        { rewrite decide_False, decide_False by done.
          rewrite <- Hk', Hpcs. split; eauto. }
        destruct (decide (k = new_id)); [split; eauto|].
        destruct (decide (k = node)); [done|]. apply Hk'.
    + exists r. split.
      * rewrite rename_c2p_lookup.
        rewrite decide_False by (rewrite Hin; congruence).
        by rewrite !decide_False by done.
      * intros r'. rewrite rename_c2p_lookup.
        destruct (decide (r' ∈ cs)); [done|].
        destruct (decide (r' = new_id)); [done|].
        destruct (decide (r' = node)); [done|]. apply Hu.
    + intros c q. rewrite rename_c2p_lookup, rename_p2c_parent_lookup.
      destruct (decide (q = p)) as [->|Hqp].
      { destruct (decide (c ∈ cs)) as [Hcc|Hcc].
        - split.
          + intros [s [[= <-] Hs]]. apply Hin in Hcc.
            apply elem_of_union in Hs as [Hs|Hs].
            * apply elem_of_difference in Hs as [Hs _].
              apply Hpin in Hs. congruence.
            * apply elem_of_singleton in Hs. subst c. congruence.
          + intros [= ?]. congruence.
        - destruct (decide (c = new_id)) as [->|Hci].
          + split; [done|]. intros _. eexists. split; [done|]. set_solver.
          + destruct (decide (c = node)) as [->|Hcn].
            * split; [|done]. intros [s [[= <-] Hs]]. set_solver.
            * rewrite <- Hpin. split.
              -- intros [s [[= <-] Hs]]. set_solver.
              -- intros Hs. eexists. split; [done|]. set_solver. }
      destruct (decide (q = new_id)) as [->|Hqi].
      { destruct (decide (c ∈ cs)) as [Hcc|Hcc].
        - split; [done|]. intros _. eauto.
        - split.
          + intros [s [[= <-] Hs]]. done.
          + destruct (decide (c = new_id)); [congruence|].
            destruct (decide (c = node)); [done|].
            intros Hcq. by apply Hnochild in Hcq. }
      destruct (decide (q = node)) as [->|Hqn].
      { split; [intros [s [? _]]; done|].
        destruct (decide (c ∈ cs)); [congruence|].
        destruct (decide (c = new_id)); [congruence|].
        destruct (decide (c = node)); [done|].
        intros Hcq. by apply Hin in Hcq. }
      destruct (decide (c ∈ cs)) as [Hcc|Hcc].
      { split; [|congruence]. intros Hex. apply Hc in Hex.
        apply Hin in Hcc. congruence. }
      destruct (decide (c = new_id)) as [->|Hci].
      { split; [|congruence]. intros Hex. apply Hc in Hex. congruence. }
      destruct (decide (c = node)) as [->|Hcn].
      { split; [|done]. intros Hex. apply Hc in Hex. congruence. }
      apply Hc.
  - cbv zeta in Ht'. subst t'. simpl.
    assert (r = node) by (symmetry; by apply Hu). subst r.
    split; [|split].
    + apply set_eq. intros k.
      rewrite !elem_of_dom, rename_c2p_lookup, rename_p2c_lookup.
      destruct (decide (k ∈ cs)) as [Hkc|Hkc].
      * apply Hin in Hkc.
        destruct (decide (k = new_id)); [split; eauto|].
        destruct (decide (k = node)); [congruence|].
        rewrite Hk', Hkc. split; eauto.
      * destruct (decide (k = new_id)); [split; eauto|].
        destruct (decide (k = node)); [done|]. apply Hk'.
    + exists new_id. split.
      * rewrite rename_c2p_lookup. rewrite decide_False by done.
        by rewrite decide_True.
      * intros r'. rewrite rename_c2p_lookup.
        destruct (decide (r' ∈ cs)); [done|].
        destruct (decide (r' = new_id)); [done|].
        destruct (decide (r' = node)); [done|].
        intros Hr'. apply Hu in Hr'. done.
    + intros c q. rewrite rename_c2p_lookup, rename_p2c_lookup.
      destruct (decide (q = new_id)) as [->|Hqi].
      { destruct (decide (c ∈ cs)) as [Hcc|Hcc].
        - split; [done|]. intros _. eauto.
        - split.
          + intros [s [[= <-] Hs]]. done.
          + destruct (decide (c = new_id)); [congruence|].
            destruct (decide (c = node)); [done|].
            intros Hcq. by apply Hnochild in Hcq. }
      destruct (decide (q = node)) as [->|Hqn].
      { split; [intros [s [? _]]; done|].
        destruct (decide (c ∈ cs)); [congruence|].
        destruct (decide (c = new_id)); [congruence|].
        destruct (decide (c = node)); [done|].
        intros Hcq. by apply Hin in Hcq. }
      destruct (decide (c ∈ cs)) as [Hcc|Hcc].
      { split; [|congruence]. intros Hex. apply Hc in Hex.
        apply Hin in Hcc. congruence. }
      destruct (decide (c = new_id)) as [->|Hci].
      { split; [|congruence]. intros Hex. apply Hc in Hex. congruence. }
      destruct (decide (c = node)) as [->|Hcn].
      { split; [|done]. intros Hex. apply Hc in Hex. congruence. }
      apply Hc.
Qed.

Lemma from_root_inv (root : T) : tree_inv (from_root root).
Proof.
  apply tree_inv_raw. simpl. split; [|split].
  - by rewrite !dom_singleton_L.
  - exists root. split; [by rewrite lookup_singleton_eq|].
    intros r'. rewrite lookup_singleton. case_decide; [done|done].
  - intros c p. rewrite !lookup_singleton. split.
    + intros [cs [Hcs Hin]]. case_decide; [|done].
      injection Hcs as <-. set_solver.
    + case_decide; done.
Qed.

(** On a tree that satisfies the invariant, every successful
    [add_node] and every successful [move_node] returns a tree that
    satisfies it again, and so does every successful [rename_node] of a
    node that is not its own parent. *)
Theorem tree_mutators_preserve_inv t t' :
  tree_inv t ->
  (forall node parent_, add_node t node parent_ = Ok t' -> tree_inv t') /\
  (forall node new_parent,
      move_node t node new_parent = Ok t' -> tree_inv t') /\
  (forall node new_id,
      parent t node <> Ok (Some node) ->
      rename_node t node new_id = Ok t' -> tree_inv t').
Proof.
  intros Hinv. split; [|split].
  - intros node par. by apply add_node_inv.
  - intros node np. by apply move_node_inv.
  - intros node new_id. by apply rename_node_inv.
Qed.

(** C9.  [rename_node] raises when the new identifier already names a
    node; [move_node] raises when the node to move is the root, and when
    the target parent is not a node.  The operations are functions of the
    receiver: a raising call yields no tree, and the receiver, a value,
    is the same before and after. *)
Theorem tree_rejected_operations t node :
  (forall new_id, is_a_node t new_id = true ->
      rename_node t node new_id = Raise ValueError) /\
  (is_root t node = Ok true ->
      forall new_parent, move_node t node new_parent = Raise ValueError) /\
  (forall new_parent, is_a_node_opt t new_parent = false ->
      move_node t node new_parent = Raise ValueError).
Proof.
  split; [|split].
  - intros new_id Hi. unfold rename_node. rewrite Hi.
    by destruct (is_a_node t node).
  - intros Hr new_parent. unfold move_node. rewrite Hr. simpl.
    destruct new_parent as [np|]; simpl; [done|].
    unfold is_root in Hr. by destruct (is_a_node t node).
  - intros new_parent Hnp. unfold move_node.
    destruct (is_root t node) as [r|e] eqn:Er; simpl.
    + rewrite Hnp. simpl.
      destruct (r && bool_decide (new_parent <> None)); [done|].
      by destruct (is_a_node t node).
    + unfold is_root, parent in Er. destruct (is_a_node t node) eqn:En.
      * apply is_a_node_spec in En as [q Hq]. rewrite Hq in Er. done.
      * congruence.
Qed.
End tree_facts.

Lemma tree_mutators_preserve_inv_witness :
  Tree.tree_inv (Tree.from_root "R"%string) /\ Tree.tree_inv Tree.root_with_child.
Proof.
  split; [apply from_root_inv|].
  apply (proj1 (tree_mutators_preserve_inv (Tree.from_root "R"%string)
                  Tree.root_with_child (from_root_inv "R"%string))
           "A"%string "R"%string).
  vm_compute. reflexivity.
Defined.

Lemma tree_rejected_operations_witness :
  Tree.rename_node Tree.root_with_child "A"%string "R"%string
    = Raise ValueError /\
  Tree.move_node Tree.root_with_child "R"%string (Some "A"%string)
    = Raise ValueError /\
  Tree.move_node Tree.root_with_child "A"%string (Some "Z"%string)
    = Raise ValueError.
Proof.
  split; [|split].
  - apply (proj1 (tree_rejected_operations Tree.root_with_child "A"%string)).
    vm_compute. reflexivity.
  - apply (proj1 (proj2
             (tree_rejected_operations Tree.root_with_child "R"%string))).
    vm_compute. reflexivity.
  - apply (proj2 (proj2
             (tree_rejected_operations Tree.root_with_child "A"%string))).
    vm_compute. reflexivity.
Defined.

(** C2.  The claim fails on a tree reached through the public
    operations.  After A was moved under itself the tree still satisfies
    the invariant; renaming A to B then succeeds, but the result keeps A
    as a node next to B (four nodes from three), lists X among the
    children of A while the parent of X is B, and so breaks the
    invariant. *)
Lemma rename_self_parent_breaks_inv :
  Tree.moved_under_itself = Ok Tree.self_parent_tree /\
  Tree.tree_inv Tree.self_parent_tree /\
  Tree.rename_node Tree.self_parent_tree "A"%string "B"%string
    = Ok Tree.self_parent_tree_renamed /\
  Tree.is_a_node Tree.self_parent_tree_renamed "A"%string = true /\
  size (Tree.nodes Tree.self_parent_tree) = 3%nat /\
  size (Tree.nodes Tree.self_parent_tree_renamed) = 4%nat /\
  Tree.children Tree.self_parent_tree_renamed "A"%string
    = Ok {["X"%string; "B"%string]} /\
  Tree.parent Tree.self_parent_tree_renamed "X"%string
    = Ok (Some "B"%string) /\
  ~ Tree.tree_inv Tree.self_parent_tree_renamed.
Proof.
  assert (Hm : Tree.moved_under_itself = Ok Tree.self_parent_tree)
    by (vm_compute; reflexivity).
  split; [done|].
  split; [|split; [|split; [|split; [|split; [|split; [|split]]]]]].
  - unfold Tree.moved_under_itself in Hm.
    apply bind_Ok_inv in Hm as (t1 & H1 & Hm).
    apply bind_Ok_inv in Hm as (t2 & H2 & Hm).
    eapply move_node_inv; [|exact Hm].
    eapply add_node_inv; [|exact H2].
    eapply add_node_inv; [|exact H1].
    apply from_root_inv.
  - vm_compute. reflexivity.
  - vm_compute. reflexivity.
  - vm_compute. reflexivity.
  - vm_compute. reflexivity.
  - vm_compute. reflexivity.
  - vm_compute. reflexivity.
  - intros [_ _ _ Hc].
    assert (Hp : Tree.parent Tree.self_parent_tree_renamed "X"%string
                 = Ok (Some "A"%string)).
    { apply Hc. exists {["X"%string; "B"%string]}.
      split; [vm_compute; reflexivity|set_solver]. }
    vm_compute in Hp. discriminate Hp.
Qed.

(** ** LoopyEqKeyBuilder *)

Section eq_key_facts.
Import EqKey.

Lemma pyval_nested_ind (P : pyval -> Prop) :
  P VNone -> (forall b, P (VBool b)) -> (forall z, P (VInt z)) ->
  (forall s, P (VStr s)) -> (forall s, P (VBytes s)) ->
  (forall l, Forall P l -> P (VTuple l)) ->
  forall v, P v.
Proof.
  intros HN HB HI HS HY HT. fix IH 1.
  intros [|b|z|s|s|l]; [exact HN|apply HB|apply HI|apply HS|apply HY|].
  apply HT. induction l as [|x l IHl]; constructor; [apply IH|exact IHl].
Qed.


Lemma py_eq_refl (a : pyval) : py_eq a a = true.
Proof.
  induction a as [|x|x|x|x|l IH] using pyval_nested_ind; simpl;
    try done; try by apply bool_decide_eq_true.
  induction IH as [|x l Hx Hl IHl]; [done|]. by rewrite Hx, IHl.
Qed.

Lemma dict_eq_spec (a b : gmap string pyval) :
  dict_eq a b = true <-> fields_pairwise_equal a b.
Proof.
  unfold dict_eq, fields_pairwise_equal.
  rewrite andb_true_iff, bool_decide_eq_true, forallb_forall.
  split.
  - intros [Hsz Hall].
    assert (Hsub : dom a ⊆ dom b).
    { intros k Hk. apply elem_of_dom in Hk as [v Hv]. apply elem_of_dom.
      specialize (Hall (k, v)). simpl in Hall.
      destruct (b !! k); [eauto|].
      exfalso. apply Bool.diff_false_true, Hall.
      apply list_elem_of_In. by apply elem_of_map_to_list. }
    split.
    + apply set_eq. apply set_subseteq_size_equiv; [done|].
      rewrite !size_dom. lia.
    + intros k va vb Ha Hb. specialize (Hall (k, va)). simpl in Hall.
      rewrite Hb in Hall. apply Hall.
      apply list_elem_of_In. by apply elem_of_map_to_list.
  - intros [Hdom Hall]. split.
    + by rewrite <- !size_dom, Hdom.
    + intros [k v] Hin. simpl.
      apply list_elem_of_In, elem_of_map_to_list in Hin.
      assert (Hk : k ∈ dom b) by (rewrite <- Hdom; apply elem_of_dom; eauto).
      apply elem_of_dom in Hk as [w Hw]. rewrite Hw. eauto.
Qed.

#[local] Instance str_le_total : Total str_le.
Proof. intros a b. apply String.leb_total. Qed.

Lemma sorted_field_names_sorted {D} (a : LoopyEqKeyBuilder D) :
  Sorted str_le (sorted_field_names a) /\
  sorted_field_names a ≡ₚ elements (dom (field_dict a)).
Proof.
  split; [apply Sorted_merge_sort; apply _|apply merge_sort_Permutation].
Qed.

Lemma keys_equal_Ok {D} (a b : LoopyEqKeyBuilder D) (r : bool) :
  keys_equal a b = Ok r <->
  exists ca cb, class_ a = Some ca /\ class_ b = Some cb /\
    r = bool_decide (__name__ ca = __name__ cb)
        && dict_eq (field_dict a) (field_dict b).
Proof.
  unfold keys_equal, key, get_class, eq_key_eq.
  destruct (class_ a) as [ca|], (class_ b) as [cb|]; simpl;
    try (split; [done|intros (? & ? & ? & ? & ?); done]).
  split.
  - intros [= <-]. by exists ca, cb.
  - intros (? & ? & [= <-] & [= <-] & ->). done.
Qed.



(** C4, amended.  For two builders that have recorded a class, the
    equality keys compare equal exactly when the recorded classes have
    the same [__name__] and every declared field compares equal pairwise
    (same field names, pairwise-equal values). *)
Theorem keys_equal_iff_names_and_fields {D} (a b : LoopyEqKeyBuilder D)
    (ca cb : pyclass) :
  class_ a = Some ca -> class_ b = Some cb ->
  (keys_equal a b = Ok true <->
   __name__ ca = __name__ cb /\
   fields_pairwise_equal (field_dict a) (field_dict b)).
Proof.
  intros Ha Hb. rewrite keys_equal_Ok, <- dict_eq_spec. split.
  - intros (ca' & cb' & Ha' & Hb' & Heq). simplify_eq.
    symmetry in Heq. apply andb_true_iff in Heq as [Hn Hd].
    by apply bool_decide_eq_true in Hn.
  - intros [Hn Hd]. exists ca, cb. split; [done|]. split; [done|].
    by rewrite Hd, bool_decide_eq_true_2.
Qed.






End eq_key_facts.

Lemma keys_equal_iff_names_and_fields_witness :
  EqKey.keys_equal EqKey.fields_xy EqKey.fields_yx = Ok true <->
  EqKey.__name__ EqKey.Assignment = EqKey.__name__ EqKey.Assignment' /\
  EqKey.fields_pairwise_equal (EqKey.field_dict EqKey.fields_xy)
                              (EqKey.field_dict EqKey.fields_yx).
Proof.
  apply (keys_equal_iff_names_and_fields EqKey.fields_xy EqKey.fields_yx
           EqKey.Assignment EqKey.Assignment'); reflexivity.
Defined.

(** C4 as stated fails: two builders that recorded distinct classes of
    the same name, with the same fields, have equal keys. *)
Lemma equal_keys_distinct_classes :
  EqKey.keys_equal EqKey.fields_xy EqKey.fields_yx = Ok true /\
  EqKey.class_ EqKey.fields_xy = Some EqKey.Assignment /\
  EqKey.class_ EqKey.fields_yx = Some EqKey.Assignment' /\
  EqKey.class_id EqKey.Assignment <> EqKey.class_id EqKey.Assignment'.
Proof. repeat split; try (vm_compute; reflexivity). discriminate. Qed.



(** ** Optional *)

Section optional_facts.
Import Optional.

(** C10.  [Optional.__eq__] reads the other operand's [has_value]
    without checking its type: against any object that has no
    [has_value] attribute the comparison raises [AttributeError],
    whether or not the [Optional] holds a value. *)
Theorem optional_eq_raises_without_has_value (o : Optional.t) (x : pyobject) :
  hasattr x "has_value" = false ->
  __eq__ o x = Raise AttributeError.
Proof.
  intros Hx. destruct x as [o'|attrs]; [done|].
  simpl in Hx. apply bool_decide_eq_false in Hx.
  apply eq_None_not_Some in Hx.
  unfold __eq__, getattr. rewrite Hx.
  by destruct (has_value o).
Qed.
End optional_facts.

Lemma optional_eq_raises_without_has_value_witness :
  Optional.__eq__ (Optional.__init__ (Some (VInt 0)))
                  (Optional.AttrObj {[ "value"%string := VInt 0 ]})
    = Raise AttributeError /\
  Optional.__eq__ (Optional.__init__ None) (Optional.AttrObj ∅)
    = Raise AttributeError.
Proof.
  split; apply optional_eq_raises_without_has_value; vm_compute; reflexivity.
Defined.

(** ** memoize_on_disk *)

Section memoize_facts.
Import Memoize.
Context {S : Type}.
Context (cache_getitem : S -> cache_key -> result pyval * S).
Context (cache_store_if_not_present :
           S -> cache_key -> pyval -> result () * S).
Context (func : pyfunction).

#[local] Abbreviation wrapper :=
  (wrapper cache_getitem cache_store_if_not_present func).
#[local] Abbreviation flag := "_no_memoize_on_disk"%string.

Lemma count_calls_app (tr1 tr2 : list event) :
  count_calls (tr1 ++ tr2) = (count_calls tr1 + count_calls tr2)%nat.
Proof. unfold count_calls. by rewrite filter_app, length_app. Qed.

Lemma wrapper_hit args kwargs (w : world S) v s :
  CACHING_ENABLED w = true -> bypass_requested kwargs = false ->
  let key := mkKey (__qualname__ func) (__name__ func) args (delete flag kwargs) in
  cache_getitem (transform_cache w) key = (Ok v, s) ->
  wrapper args kwargs w =
    (Ok v, mkWorld true s (trace w ++ [EvLookup key; EvLogReturnedFromDisk])).
Proof.
  intros He Hb key Hg. unfold Memoize.wrapper. rewrite He. simpl.
  unfold bypass_requested in Hb. rewrite Hb. fold key. rewrite Hg.
  unfold log, set_cache. simpl. by rewrite He, <- app_assoc.
Qed.

Lemma wrapper_miss args kwargs (w : world S) s :
  CACHING_ENABLED w = true -> bypass_requested kwargs = false ->
  let kwargs' := delete flag kwargs in
  let key := mkKey (__qualname__ func) (__name__ func) args kwargs' in
  cache_getitem (transform_cache w) key = (Raise KeyError, s) ->
  wrapper args kwargs w =
    let tr := trace w ++ [EvLookup key; EvLogNotPresentOnDisk;
                          EvProcessLogger; EvCall args kwargs'] in
    match __call__ func args kwargs' with
    | Raise e => (Raise e, mkWorld true s tr)
    | Ok v =>
        let sr := cache_store_if_not_present s key v in
        (match sr.1 with Ok _ => Ok v | Raise e => Raise e end,
         mkWorld true sr.2 (tr ++ [EvStoreIfNotPresent key v]))
    end.
Proof.
  intros He Hb kwargs' key Hg. unfold Memoize.wrapper. rewrite He. simpl.
  unfold bypass_requested in Hb. rewrite Hb. fold kwargs' key. rewrite Hg.
  unfold call_func, log, set_cache. simpl. rewrite He.
  destruct (__call__ func args kwargs') as [v|e]; simpl.
  - destruct (cache_store_if_not_present s key v) as [[u|e] s'] eqn:Es; simpl;
      rewrite <- !app_assoc; done.
  - by rewrite <- !app_assoc.
Qed.

Lemma wrapper_lookup_failure args kwargs (w : world S) e s :
  CACHING_ENABLED w = true -> bypass_requested kwargs = false ->
  let key := mkKey (__qualname__ func) (__name__ func) args (delete flag kwargs) in
  cache_getitem (transform_cache w) key = (Raise e, s) -> e <> KeyError ->
  wrapper args kwargs w = (Raise e, mkWorld true s (trace w ++ [EvLookup key])).
Proof.
  intros He Hb key Hg Hne. unfold Memoize.wrapper. rewrite He. simpl.
  unfold bypass_requested in Hb. rewrite Hb. fold key. rewrite Hg.
  unfold log, set_cache. simpl. rewrite He. by destruct e.
Qed.

(** When the caching-enabled flag is off, or the caller passes a
    true [_no_memoize_on_disk], the call runs the wrapped function and
    returns its result; the store's state is the same afterwards and the
    only event of the call is the call of the function: no lookup, no
    store.  With the flag off the keyword arguments go to the function as
    they are; otherwise the bypass keyword has been popped. *)
Theorem bypass_runs_function_only args kwargs (w : world S) :
  CACHING_ENABLED w = false \/ bypass_requested kwargs = true ->
  let kwargs' := if CACHING_ENABLED w then delete flag kwargs else kwargs in
  wrapper args kwargs w =
    (__call__ func args kwargs',
     mkWorld (CACHING_ENABLED w) (transform_cache w)
             (trace w ++ [EvCall args kwargs'])).
Proof.
  intros Hb. unfold Memoize.wrapper, call_func, log.
  destruct (CACHING_ENABLED w) eqn:He; simpl; [|done].
  destruct Hb as [Hb|Hb]; [done|].
  unfold bypass_requested in Hb. by rewrite Hb.
Qed.

(** C3, amended.  A lookup that fails with anything but [KeyError] is
    not caught: the call raises that failure and the wrapped function is
    not run.  When the lookup reports the key absent and the function
    returns, a failing [store_if_not_present] is not caught either: the
    call raises it instead of returning the function's result. *)
Theorem store_failure_propagates args kwargs (w : world S) (e : exn) :
  CACHING_ENABLED w = true ->
  bypass_requested kwargs = false ->
  let kwargs' := delete flag kwargs in
  let key := mkKey (__qualname__ func) (__name__ func) args kwargs' in
  let lookup := cache_getitem (transform_cache w) key in
  (lookup.1 = Raise e -> e <> KeyError ->
     (wrapper args kwargs w).1 = Raise e /\
     count_calls (trace (wrapper args kwargs w).2) = count_calls (trace w)) /\
  (forall v, lookup.1 = Raise KeyError ->
     __call__ func args kwargs' = Ok v ->
     (cache_store_if_not_present lookup.2 key v).1 = Raise e ->
     (wrapper args kwargs w).1 = Raise e).
Proof.
  intros He Hb kwargs' key lookup. split.
  - intros Hl Hne. destruct lookup as [r s] eqn:Hg. simpl in Hl. subst r.
    rewrite (wrapper_lookup_failure args kwargs w e s He Hb Hg Hne). simpl.
    split; [done|]. rewrite count_calls_app. unfold count_calls. simpl. lia.
  - intros v Hl Hf Hst. destruct lookup as [r s] eqn:Hg. simpl in *. subst r.
    rewrite (wrapper_miss args kwargs w s He Hb Hg). cbv zeta.
    fold kwargs'. rewrite Hf. fold key. by rewrite Hst.
Qed.
End memoize_facts.

(** ** memoize_on_disk over the persisted store *)

Section memoize_store_facts.
Import Memoize.
Context (key_builder : cache_key -> string).
Context (func : pyfunction).

#[local] Abbreviation cache_getitem :=
  (WriteOncePersistentDict.__getitem__ key_builder).
#[local] Abbreviation cache_store_if_not_present :=
  (WriteOncePersistentDict.store_if_not_present key_builder).
#[local] Abbreviation wrapper :=
  (wrapper cache_getitem cache_store_if_not_present func).
#[local] Abbreviation flag := "_no_memoize_on_disk"%string.

Lemma dict_eq_refl (d : gmap string pyval) : EqKey.dict_eq d d = true.
Proof.
  apply dict_eq_spec. split; [done|].
  intros k va vb Ha Hb. rewrite Ha in Hb. injection Hb as <-.
  apply py_eq_refl.
Qed.

Lemma cache_key_eq_refl (key : cache_key) : cache_key_eq key key = true.
Proof.
  unfold cache_key_eq.
  rewrite !bool_decide_eq_true_2 by done.
  by rewrite py_eq_refl, dict_eq_refl.
Qed.

(** C1, amended.  With caching enabled, no bypass, a wrapped function
    that returns on the arguments and no digest collision (the store has
    no entry at the cache key's digest, or one stored under an equal
    key), two calls with the same arguments run the function at most
    once.  The first call returns the entry's value without calling the
    function or writing, or, when there is no entry, calls the function
    once and stores its result under the key with
    [store_if_not_present]; the second call only looks the key up and
    returns the stored result, leaving the store as it is. *)
Theorem second_call_served_from_store args kwargs
    (w0 : world WriteOncePersistentDict.t) v :
  CACHING_ENABLED w0 = true ->
  bypass_requested kwargs = false ->
  __call__ func args (delete flag kwargs) = Ok v ->
  let kwargs' := delete flag kwargs in
  let key := mkKey (__qualname__ func) (__name__ func) args kwargs' in
  WriteOncePersistentDict.no_collision key_builder (transform_cache w0) key
    = true ->
  let first := wrapper args kwargs w0 in
  let second := wrapper args kwargs first.2 in
  first =
    match transform_cache w0 !! key_builder key with
    | Some (_, stored) =>
        (Ok stored,
         mkWorld true (transform_cache w0)
                 (trace w0 ++ [EvLookup key; EvLogReturnedFromDisk]))
    | None =>
        (Ok v,
         mkWorld true (<[key_builder key := (key, v)]> (transform_cache w0))
                 (trace w0 ++ [EvLookup key; EvLogNotPresentOnDisk;
                               EvProcessLogger; EvCall args kwargs';
                               EvStoreIfNotPresent key v]))
    end /\
  (cache_getitem (transform_cache first.2) key).1 = first.1 /\
  second =
    (first.1,
     mkWorld true (transform_cache first.2)
             (trace first.2 ++ [EvLookup key; EvLogReturnedFromDisk])) /\
  count_calls (trace second.2) = count_calls (trace first.2) /\
  (count_calls (trace first.2) <= count_calls (trace w0) + 1)%nat.
Proof.
  intros He Hb Hf kwargs' key Hnc first second.
  unfold WriteOncePersistentDict.no_collision in Hnc.
  assert (H1 : first =
    match transform_cache w0 !! key_builder key with
    | Some (_, stored) =>
        (Ok stored,
         mkWorld true (transform_cache w0)
                 (trace w0 ++ [EvLookup key; EvLogReturnedFromDisk]))
    | None =>
        (Ok v,
         mkWorld true (<[key_builder key := (key, v)]> (transform_cache w0))
                 (trace w0 ++ [EvLookup key; EvLogNotPresentOnDisk;
                               EvProcessLogger; EvCall args kwargs';
                               EvStoreIfNotPresent key v]))
    end).
  { destruct (transform_cache w0 !! key_builder key) as [[sk stored]|] eqn:Es.
    - unfold first. apply wrapper_hit; [done|done|]. fold kwargs' key.
      unfold WriteOncePersistentDict.__getitem__. by rewrite Es, Hnc.
    - unfold first.
      rewrite (wrapper_miss _ _ _ args kwargs w0 (transform_cache w0) He Hb).
      + cbv zeta. rewrite Hf. fold kwargs' key.
        unfold WriteOncePersistentDict.store_if_not_present. rewrite Es.
        simpl. by rewrite <- app_assoc.
      + fold kwargs' key.
        unfold WriteOncePersistentDict.__getitem__. by rewrite Es. }
  assert (H2 : cache_getitem (transform_cache first.2) key
               = (first.1, transform_cache first.2)).
  { rewrite H1. unfold WriteOncePersistentDict.__getitem__.
    destruct (transform_cache w0 !! key_builder key) as [[sk stored]|] eqn:Es;
      simpl.
    - by rewrite Es, Hnc.
    - unfold WriteOncePersistentDict.t. rewrite lookup_insert_eq.
      by rewrite cache_key_eq_refl. }
  assert (He1 : CACHING_ENABLED first.2 = true).
  { rewrite H1. by destruct (transform_cache w0 !! key_builder key) as [[??]|]. }
  assert (Hr : exists r, first.1 = Ok r).
  { rewrite H1.
    destruct (transform_cache w0 !! key_builder key) as [[??]|]; simpl; eauto. }
  destruct Hr as [r Hr]. rewrite Hr in H2.
  assert (H3 : second =
    (first.1,
     mkWorld true (transform_cache first.2)
             (trace first.2 ++ [EvLookup key; EvLogReturnedFromDisk]))).
  { rewrite Hr. unfold second. by apply wrapper_hit. }
  split; [exact H1|]. split; [by rewrite H2, Hr|]. split; [exact H3|].
  split.
  - rewrite H3. simpl. rewrite count_calls_app. unfold count_calls. simpl. lia.
  - rewrite H1.
    destruct (transform_cache w0 !! key_builder key) as [[??]|]; simpl;
      rewrite count_calls_app; unfold count_calls; simpl; lia.
Qed.
End memoize_store_facts.

Lemma bypass_runs_function_only_witness :
  Memoize.wrapper Memoize.dict_getitem Memoize.dict_store_if_not_present
    Memoize.double [VInt 3]
    {[ "_no_memoize_on_disk"%string := VBool true ]}
    (Memoize.mkWorld true [] [])
  = (Ok (VInt 6), Memoize.mkWorld true [] [Memoize.EvCall [VInt 3] ∅]) /\
  Memoize.wrapper Memoize.dict_getitem Memoize.dict_store_if_not_present
    Memoize.double [VInt 3] ∅ (Memoize.mkWorld false [] [])
  = (Ok (VInt 6), Memoize.mkWorld false [] [Memoize.EvCall [VInt 3] ∅]).
Proof.
  split.
  - rewrite (bypass_runs_function_only Memoize.dict_getitem
               Memoize.dict_store_if_not_present Memoize.double [VInt 3]
               {[ "_no_memoize_on_disk"%string := VBool true ]}
               (Memoize.mkWorld true [] [])); [|right; vm_compute; reflexivity].
    vm_compute. reflexivity.
  - rewrite (bypass_runs_function_only Memoize.dict_getitem
               Memoize.dict_store_if_not_present Memoize.double [VInt 3] ∅
               (Memoize.mkWorld false [] [])); [|left; reflexivity].
    vm_compute. reflexivity.
Defined.


Lemma store_failure_propagates_witness :
  (Memoize.wrapper Memoize.unreachable_getitem
     Memoize.unreachable_store_if_not_present Memoize.double
     [VInt 3] ∅ (Memoize.mkWorld true () [])).1 = Raise OSError /\
  Memoize.count_calls
    (Memoize.trace
       (Memoize.wrapper Memoize.unreachable_getitem
          Memoize.unreachable_store_if_not_present Memoize.double
          [VInt 3] ∅ (Memoize.mkWorld true () [])).2)
  = Memoize.count_calls [].
Proof.
  assert (Hb : Memoize.bypass_requested ∅ = false)
    by (vm_compute; reflexivity).
  apply (proj1 (store_failure_propagates Memoize.unreachable_getitem
                  Memoize.unreachable_store_if_not_present Memoize.double
                  [VInt 3] ∅ (Memoize.mkWorld true () []) OSError
                  eq_refl Hb)); [reflexivity|discriminate].
Defined.

(** C3 as stated fails: with a store that cannot be read, and with one
    that can be read but not written, the call raises the store's
    [OSError] although the wrapped function returns 6 on the argument. *)
Lemma store_failure_is_not_absorbed :
  Memoize.__call__ Memoize.double [VInt 3] ∅ = Ok (VInt 6) /\
  (Memoize.wrapper Memoize.unreachable_getitem
     Memoize.unreachable_store_if_not_present Memoize.double
     [VInt 3] ∅ (Memoize.mkWorld true () [])).1 = Raise OSError /\
  (Memoize.wrapper Memoize.dict_getitem
     Memoize.readonly_store_if_not_present Memoize.double
     [VInt 3] ∅ (Memoize.mkWorld true [] [])).1 = Raise OSError.
Proof. repeat split; vm_compute; reflexivity. Qed.

Lemma second_call_served_from_store_witness :
  Memoize.colliding_wrapper [VInt 3] ∅ Memoize.empty_world
  = (Ok (VInt 6),
     Memoize.mkWorld true
       {[ "0"%string :=
            (Memoize.mkKey "double" "double" [VInt 3] ∅, VInt 6) ]}
       [Memoize.EvLookup (Memoize.mkKey "double" "double" [VInt 3] ∅);
        Memoize.EvLogNotPresentOnDisk; Memoize.EvProcessLogger;
        Memoize.EvCall [VInt 3] ∅;
        Memoize.EvStoreIfNotPresent
          (Memoize.mkKey "double" "double" [VInt 3] ∅) (VInt 6)]) /\
  (Memoize.colliding_wrapper [VInt 3] ∅
     (Memoize.colliding_wrapper [VInt 3] ∅ Memoize.empty_world).2).1
  = Ok (VInt 6) /\
  Memoize.count_calls
    (Memoize.trace
       (Memoize.colliding_wrapper [VInt 3] ∅
          (Memoize.colliding_wrapper [VInt 3] ∅ Memoize.empty_world).2).2)
  = 1%nat.
Proof.
  assert (Hb : Memoize.bypass_requested ∅ = false)
    by (vm_compute; reflexivity).
  assert (Hf : Memoize.__call__ Memoize.double [VInt 3]
                 (delete "_no_memoize_on_disk"%string ∅) = Ok (VInt 6))
    by (vm_compute; reflexivity).
  assert (Hn : Memoize.WriteOncePersistentDict.no_collision
                 Memoize.constant_key_builder
                 (Memoize.transform_cache Memoize.empty_world)
                 (Memoize.mkKey (Memoize.__qualname__ Memoize.double)
                    (Memoize.__name__ Memoize.double) [VInt 3]
                    (delete "_no_memoize_on_disk"%string ∅)) = true)
    by (vm_compute; reflexivity).
  destruct (second_call_served_from_store Memoize.constant_key_builder
              Memoize.double [VInt 3] ∅ Memoize.empty_world (VInt 6)
              eq_refl Hb Hf Hn) as (H1 & _ & H3 & H4 & _).
  unfold Memoize.colliding_wrapper.
  split; [rewrite H1; vm_compute; reflexivity|].
  split; [rewrite H3, H1; vm_compute; reflexivity|].
  rewrite H4, H1. vm_compute. reflexivity.
Defined.

(** C1 as stated fails in two ways.  With a key builder that gives two
    keys the same digest, the entry stored for the argument 4 occupies
    the digest of the key for 3: both calls on 3 find the key absent and
    run the function, and nothing is stored for 3.  And a function that
    raises on the arguments is run by both calls. *)
Lemma colliding_digest_recomputes :
  Memoize.colliding_calls.1 = Ok (VInt 6) /\
  filter Memoize.is_call (Memoize.trace Memoize.colliding_calls.2)
  = [Memoize.EvCall [VInt 4] ∅; Memoize.EvCall [VInt 3] ∅;
     Memoize.EvCall [VInt 3] ∅] /\
  Memoize.transform_cache Memoize.colliding_calls.2
  = {[ "0"%string := (Memoize.mkKey "double" "double" [VInt 4] ∅, VInt 8) ]} /\
  Memoize.failing_calls.1 = Raise TypeError /\
  filter Memoize.is_call (Memoize.trace Memoize.failing_calls.2)
  = [Memoize.EvCall [VNone] ∅; Memoize.EvCall [VNone] ∅].
Proof. repeat split; vm_compute; reflexivity. Qed.

(** C8.  The claim fails when both conditions hold.  With caching off
    the keyword [_no_memoize_on_disk] is not popped: the wrapped
    function is called with it, and a function with a fixed signature
    raises [TypeError] instead of returning its result.  With caching on
    the same call pops the keyword and returns the function's result.
    In both cases the store is not touched. *)
Lemma bypass_flag_reaches_function :
  Memoize.wrapper Memoize.dict_getitem Memoize.dict_store_if_not_present
    Memoize.double_fixed [VInt 3]
    {[ "_no_memoize_on_disk"%string := VBool true ]}
    (Memoize.mkWorld false [] [])
  = (Raise TypeError,
     Memoize.mkWorld false []
       [Memoize.EvCall [VInt 3]
          {[ "_no_memoize_on_disk"%string := VBool true ]}]) /\
  Memoize.wrapper Memoize.dict_getitem Memoize.dict_store_if_not_present
    Memoize.double_fixed [VInt 3]
    {[ "_no_memoize_on_disk"%string := VBool true ]}
    (Memoize.mkWorld true [] [])
  = (Ok (VInt 6), Memoize.mkWorld true [] [Memoize.EvCall [VInt 3] ∅]) /\
  Memoize.__call__ Memoize.double_fixed [VInt 3] ∅ = Ok (VInt 6).
Proof. repeat split; vm_compute; reflexivity. Qed.

(** ** Lazily unpickling containers *)

Section lazy_read_facts.
Import Lazy.
Context {K : Type} `{Countable K} {V : Type} (loads : string -> V).

Lemma dict_getitem_value (d : LazilyUnpicklingDict.t K V) key o h :
  LazilyUnpicklingDict._map d !! key = Some (Value o) ->
  LazilyUnpicklingDict.__getitem__ loads d key h = (Ok o, d, h).
Proof. intros Hk. unfold LazilyUnpicklingDict.__getitem__. by rewrite Hk. Qed.

Lemma dict_getitem_pickled (d : LazilyUnpicklingDict.t K V) key it bs h :
  LazilyUnpicklingDict._map d !! key = Some it ->
  pickled_bytes it = Some bs ->
  LazilyUnpicklingDict.__getitem__ loads d key h =
    (Ok (mkObj (next_oid h) (loads bs)),
     LazilyUnpicklingDict.mk
       (<[key := Value (mkObj (next_oid h) (loads bs))]>
          (LazilyUnpicklingDict._map d)),
     mkHeap (S (next_oid h)) (bs :: loads_calls h)).
Proof.
  intros Hk Hb. unfold LazilyUnpicklingDict.__getitem__. by rewrite Hk, Hb.
Qed.

Lemma dict_getitem_keeps_value (d : LazilyUnpicklingDict.t K V) key key' o h :
  LazilyUnpicklingDict._map d !! key = Some (Value o) ->
  LazilyUnpicklingDict._map
    (LazilyUnpicklingDict.__getitem__ loads d key' h).1.2 !! key
  = Some (Value o).
Proof.
  intros Hk. unfold LazilyUnpicklingDict.__getitem__.
  destruct (LazilyUnpicklingDict._map d !! key') as [it|] eqn:Ek'; [|done].
  destruct (pickled_bytes it) as [bs|] eqn:Eb.
  - simpl. rewrite lookup_insert_ne; [done|].
    intros ->. rewrite Hk in Ek'. injection Ek' as <-. done.
  - by destruct it.
Qed.

Lemma dict_read_all_keeps_value keys (d : LazilyUnpicklingDict.t K V) key o h :
  LazilyUnpicklingDict._map d !! key = Some (Value o) ->
  LazilyUnpicklingDict._map
    (LazilyUnpicklingDict.read_all loads keys d h).1 !! key = Some (Value o).
Proof.
  revert d h. induction keys as [|k ks IH]; intros d h Hk; [done|].
  simpl.
  pose proof (dict_getitem_keeps_value d key k o h Hk) as Hk'.
  destruct (LazilyUnpicklingDict.__getitem__ loads d k h) as [[r d'] h'].
  by apply IH.
Qed.

Lemma norm_index_lt len i n : norm_index len i = Some n -> (n < len)%nat.
Proof.
  unfold norm_index. repeat case_bool_decide; intros [= <-]; lia.
Qed.

Lemma list_getitem_value (l : LazilyUnpicklingList.t V) key i o h :
  norm_index (length (LazilyUnpicklingList._list l)) key = Some i ->
  LazilyUnpicklingList._list l !! i = Some (Value o) ->
  LazilyUnpicklingList.__getitem__ loads l key h = (Ok o, l, h).
Proof.
  intros Hn Hk. unfold LazilyUnpicklingList.__getitem__. by rewrite Hn, Hk.
Qed.

Lemma list_getitem_pickled (l : LazilyUnpicklingList.t V) key i it bs h :
  norm_index (length (LazilyUnpicklingList._list l)) key = Some i ->
  LazilyUnpicklingList._list l !! i = Some it ->
  pickled_bytes it = Some bs ->
  LazilyUnpicklingList.__getitem__ loads l key h =
    (Ok (mkObj (next_oid h) (loads bs)),
     LazilyUnpicklingList.mk
       (<[i := Value (mkObj (next_oid h) (loads bs))]>
          (LazilyUnpicklingList._list l)),
     mkHeap (S (next_oid h)) (bs :: loads_calls h)).
Proof.
  intros Hn Hk Hb. unfold LazilyUnpicklingList.__getitem__.
  by rewrite Hn, Hk, Hb.
Qed.

(** A read replaces at most one slot, by the value it stands for; the
    length stays. *)
Lemma list_getitem_shape (l : LazilyUnpicklingList.t V) key h :
  let l' := (LazilyUnpicklingList.__getitem__ loads l key h).1.2 in
  l' = l \/
  exists i it bs n,
    LazilyUnpicklingList._list l !! i = Some it /\
    pickled_bytes it = Some bs /\
    LazilyUnpicklingList._list l' =
      <[i := Value (mkObj n (loads bs))]> (LazilyUnpicklingList._list l).
Proof.
  unfold LazilyUnpicklingList.__getitem__.
  destruct (norm_index _ key) as [i|]; [|by left].
  destruct (LazilyUnpicklingList._list l !! i) as [it|] eqn:Ei; [|by left].
  destruct (pickled_bytes it) as [bs|] eqn:Eb.
  - right. exists i, it, bs, (next_oid h). done.
  - left. by destruct it.
Qed.

Lemma list_getitem_length (l : LazilyUnpicklingList.t V) key h :
  length (LazilyUnpicklingList._list
            (LazilyUnpicklingList.__getitem__ loads l key h).1.2)
  = length (LazilyUnpicklingList._list l).
Proof.
  destruct (list_getitem_shape l key h) as [->|(i & it & bs & n & _ & _ & ->)];
    [done|apply length_insert].
Qed.

Lemma list_getitem_keeps_value (l : LazilyUnpicklingList.t V) key i o h :
  LazilyUnpicklingList._list l !! i = Some (Value o) ->
  LazilyUnpicklingList._list
    (LazilyUnpicklingList.__getitem__ loads l key h).1.2 !! i
  = Some (Value o).
Proof.
  intros Hi.
  destruct (list_getitem_shape l key h)
    as [->|(j & it & bs & n & Hj & Hb & ->)]; [done|].
  destruct (decide (j = i)) as [->|Hne].
  - rewrite Hi in Hj. injection Hj as <-. done.
  - by rewrite list_lookup_insert_ne.
Qed.

Lemma list_read_all_keeps keys (l : LazilyUnpicklingList.t V) i o h :
  LazilyUnpicklingList._list l !! i = Some (Value o) ->
  let l' := (LazilyUnpicklingList.read_all loads keys l h).1 in
  LazilyUnpicklingList._list l' !! i = Some (Value o) /\
  length (LazilyUnpicklingList._list l')
  = length (LazilyUnpicklingList._list l).
Proof.
  revert l h. induction keys as [|k ks IH]; intros l h Hi; [done|].
  simpl.
  pose proof (list_getitem_keeps_value l k i o h Hi) as Hi'.
  pose proof (list_getitem_length l k h) as Hlen.
  destruct (LazilyUnpicklingList.__getitem__ loads l k h) as [[r l1] h1].
  simpl in *. destruct (IH l1 h1 Hi') as [H1 H2]. split; [done|congruence].
Qed.

(** C7.  Reading a dictionary key (resp. a list index) whose slot holds
    a pickled element unpickles the bytes once, into a new object,
    stores that object in the slot and returns it.  After any further
    reads of the container, a read of the same key or index returns that
    very object and leaves container and heap as they are: the bytes are
    not unpickled again. *)
Theorem lazy_read_materializes_once :
  (forall (d : LazilyUnpicklingDict.t K V) key it bs h,
     LazilyUnpicklingDict._map d !! key = Some it ->
     pickled_bytes it = Some bs ->
     let o := mkObj (next_oid h) (loads bs) in
     let first := LazilyUnpicklingDict.__getitem__ loads d key h in
     first = (Ok o,
              LazilyUnpicklingDict.mk
                (<[key := Value o]> (LazilyUnpicklingDict._map d)),
              mkHeap (S (next_oid h)) (bs :: loads_calls h)) /\
     forall keys,
       let later := LazilyUnpicklingDict.read_all loads keys first.1.2 first.2 in
       LazilyUnpicklingDict.__getitem__ loads later.1 key later.2
       = (Ok o, later.1, later.2)) /\
  (forall (l : LazilyUnpicklingList.t V) key i it bs h,
     norm_index (length (LazilyUnpicklingList._list l)) key = Some i ->
     LazilyUnpicklingList._list l !! i = Some it ->
     pickled_bytes it = Some bs ->
     let o := mkObj (next_oid h) (loads bs) in
     let first := LazilyUnpicklingList.__getitem__ loads l key h in
     first = (Ok o,
              LazilyUnpicklingList.mk
                (<[i := Value o]> (LazilyUnpicklingList._list l)),
              mkHeap (S (next_oid h)) (bs :: loads_calls h)) /\
     forall keys,
       let later := LazilyUnpicklingList.read_all loads keys first.1.2 first.2 in
       LazilyUnpicklingList.__getitem__ loads later.1 key later.2
       = (Ok o, later.1, later.2)).
Proof.
  split.
  - intros d key it bs h Hk Hb o first.
    assert (Hf : first = (Ok o,
              LazilyUnpicklingDict.mk
                (<[key := Value o]> (LazilyUnpicklingDict._map d)),
              mkHeap (S (next_oid h)) (bs :: loads_calls h)))
      by by apply dict_getitem_pickled with it.
    split; [done|]. intros keys later. subst later. rewrite Hf. simpl.
    apply dict_getitem_value.
    apply dict_read_all_keeps_value. simpl. apply lookup_insert_eq.
  - intros l key i it bs h Hn Hk Hb o first.
    assert (Hf : first = (Ok o,
              LazilyUnpicklingList.mk
                (<[i := Value o]> (LazilyUnpicklingList._list l)),
              mkHeap (S (next_oid h)) (bs :: loads_calls h)))
      by by apply list_getitem_pickled with it.
    split; [done|]. intros keys later. subst later. rewrite Hf. simpl.
    assert (Hi : LazilyUnpicklingList._list
              (LazilyUnpicklingList.mk
                 (<[i := Value o]> (LazilyUnpicklingList._list l))) !! i
            = Some (Value o)).
    { simpl. apply list_lookup_insert_eq. by apply norm_index_lt in Hn. }
    destruct (list_read_all_keeps keys _ i o
                (mkHeap (S (next_oid h)) (bs :: loads_calls h)) Hi)
      as [H1 H2].
    apply list_getitem_value with i; [|exact H1].
    rewrite H2. simpl. by rewrite length_insert.
Qed.
End lazy_read_facts.

Lemma lazy_read_materializes_once_witness :
  (Lazy.LazilyUnpicklingDict.__getitem__ id Lazy.example_dict "k"%string
     Lazy.example_heap).1.1 = Ok (Lazy.mkObj 1 "a = b"%string) /\
  (Lazy.LazilyUnpicklingList.__getitem__ id Lazy.example_list (-1)
     Lazy.example_heap).1.1 = Ok (Lazy.mkObj 1 "a = b"%string).
Proof.
  split.
  - destruct (proj1 (lazy_read_materializes_once (K:=string) id)
                Lazy.example_dict "k"%string
                (Lazy.Pickled (Lazy.mkPickled "a = b")) "a = b"%string
                Lazy.example_heap) as [Hf _];
      [vm_compute; reflexivity|reflexivity|].
    rewrite Hf. reflexivity.
  - destruct (proj2 (lazy_read_materializes_once (K:=string) id)
                Lazy.example_list (-1) 1%nat
                (Lazy.Pickled (Lazy.mkPickled "a = b")) "a = b"%string
                Lazy.example_heap) as [Hf _];
      [reflexivity|reflexivity|reflexivity|].
    rewrite Hf. reflexivity.
Defined.

Section lazy_eq_facts.
Import Lazy Lazy.LazilyUnpicklingListWithEqAndPersistentHashing.
Context {V : Type} (loads : string -> V).
Context (k : V -> pyval) (elem_eq : V -> V -> bool).

Lemma get_eq_key_wf (self : t V) x :
  (forall o, eq_key_getter self (Value o) = k (content o)) ->
  entry_wf loads k x ->
  _get_eq_key self x = k (materialized loads x).
Proof. intros Hg Hx. destruct x as [p|p|o]; simpl in *; [done|done|apply Hg]. Qed.

Lemma eq_loop_materialized (self : t V) xs ys :
  (forall o, eq_key_getter self (Value o) = k (content o)) ->
  (forall x y, py_eq (k x) (k y) = elem_eq x y) ->
  Forall (entry_wf loads k) xs -> Forall (entry_wf loads k) ys ->
  length xs = length ys ->
  eq_loop self xs ys = materialized_eq loads elem_eq xs ys.
Proof.
  intros Hg Hk Hxs. revert ys.
  induction Hxs as [|x xs Hx Hxs IH]; intros [|y ys] Hys Hlen; try done.
  apply Forall_cons in Hys as [Hy Hys]. simpl in Hlen.
  unfold materialized_eq. simpl.
  rewrite (get_eq_key_wf self x Hg Hx), (get_eq_key_wf self y Hg Hy), Hk.
  destruct (elem_eq _ _); simpl; [|done].
  apply IH; [done|lia].
Qed.

Lemma plain_list_eq_length {A} (f : A -> A -> bool) (xs ys : list A) :
  length xs <> length ys -> plain_list_eq f xs ys = false.
Proof.
  revert ys. induction xs as [|x xs IH]; intros [|y ys] Hl; simpl in *;
    try done.
  rewrite IH by lia. apply andb_false_r.
Qed.

Lemma eq_via_list (self : t V) other other_list :
  operand_list other = Some other_list ->
  __eq__ self other =
    if negb (bool_decide (length (_list self) = length other_list))
    then PyBool false
    else PyBool (eq_loop self (_list self) other_list).
Proof. destruct other; simpl; intros [= <-]; done. Qed.

Lemma eq_agrees (self : t V) other other_list :
  operand_list other = Some other_list ->
  (forall o, eq_key_getter self (Value o) = k (content o)) ->
  (forall x y, py_eq (k x) (k y) = elem_eq x y) ->
  Forall (entry_wf loads k) (_list self) ->
  Forall (entry_wf loads k) other_list ->
  __eq__ self other =
    PyBool (materialized_eq loads elem_eq (_list self) other_list).
Proof.
  intros Ho Hg Hk Hs Hl. rewrite (eq_via_list self other other_list Ho).
  case_bool_decide as Hlen; simpl.
  - f_equal. by apply eq_loop_materialized.
  - f_equal. symmetry. apply plain_list_eq_length.
    by rewrite !length_fmap.
Qed.

Lemma getitem_preserves (self : t V) key h :
  let self' := (__getitem__ loads self key h).1.2 in
  eq_key_getter self' = eq_key_getter self /\
  materialized loads <$> _list self' = materialized loads <$> _list self /\
  (Forall (entry_wf loads k) (_list self) ->
   Forall (entry_wf loads k) (_list self')).
Proof.
  unfold __getitem__.
  pose proof (list_getitem_shape loads
                (LazilyUnpicklingList.mk (_list self)) key h) as Hsh.
  destruct (LazilyUnpicklingList.__getitem__ loads _ key h) as [[r l'] h'].
  simpl in *. split; [done|].
  destruct Hsh as [->|(i & it & bs & n & Hi & Hb & ->)]; [done|].
  split.
  - rewrite list_fmap_insert. apply list_insert_id.
    rewrite list_lookup_fmap, Hi. simpl. f_equal.
    destruct it; simpl in *; congruence.
  - intros Hwf. apply Forall_insert; done.
Qed.

Lemma eq_loop_pairwise (self : t V) xs ys :
  length xs = length ys ->
  eq_loop self xs ys = true <->
  forall i x y, xs !! i = Some x -> ys !! i = Some y ->
    py_eq (_get_eq_key self x) (_get_eq_key self y) = true.
Proof.
  revert ys. induction xs as [|a xs IH]; intros [|b ys] Hlen; try done.
  simpl in Hlen. simpl.
  destruct (py_eq (_get_eq_key self a) (_get_eq_key self b)) eqn:Eab; simpl.
  - rewrite IH by lia. split.
    + intros H [|i] x y Hx Hy; simpl in *; [congruence|eauto].
    + intros H i x y Hx Hy. by apply (H (S i)).
  - split; [done|]. intros H.
    specialize (H O a b eq_refl eq_refl). congruence.
Qed.

(** C5, amended.  Against a plain list or another lazily unpickling
    list, [==] answers unequal when the lengths differ, and otherwise
    compares the elements' equality keys pairwise, position by position:
    the key stored with a pickled element, and for a materialized
    element of either operand the key the left operand's
    [eq_key_getter] gives.  When every pickled entry of either operand
    carries the key that this getter gives for the value it unpickles to
    (as [__getstate__] writes it when both lists use the same getter),
    and the getter's keys are equal exactly when the elements are, the
    answer is the one [==] gives on the fully materialized plain
    sequences, and a read that materializes an element of either operand
    beforehand does not change it. *)
Theorem lazy_list_eq_agrees_with_materialized (self : t V)
    (other : operand V) (other_list : list (item (obj V))) :
  operand_list other = Some other_list ->
  (length (_list self) <> length other_list ->
   __eq__ self other = PyBool false) /\
  (length (_list self) = length other_list ->
   exists b, __eq__ self other = PyBool b /\
     (b = true <->
      forall i x y, _list self !! i = Some x -> other_list !! i = Some y ->
        py_eq (_get_eq_key self x) (_get_eq_key self y) = true)) /\
  ((forall o, eq_key_getter self (Value o) = k (content o)) ->
   (forall x y, py_eq (k x) (k y) = elem_eq x y) ->
   Forall (entry_wf loads k) (_list self) ->
   Forall (entry_wf loads k) other_list ->
   __eq__ self other =
     PyBool (materialized_eq loads elem_eq (_list self) other_list) /\
   (forall key h,
      __eq__ (__getitem__ loads self key h).1.2 other = __eq__ self other) /\
   (forall l' key h, other = LazyListWithEq l' ->
      __eq__ self (LazyListWithEq (__getitem__ loads l' key h).1.2)
      = __eq__ self other)).
Proof.
  intros Ho. split; [|split].
  - intros Hlen. rewrite (eq_via_list self other other_list Ho).
    by rewrite bool_decide_eq_false_2.
  - intros Hlen. rewrite (eq_via_list self other other_list Ho).
    rewrite bool_decide_eq_true_2 by done. simpl.
    eexists. split; [done|]. by apply eq_loop_pairwise.
  - intros Hg Hk Hs Hl.
    pose proof (eq_agrees self other other_list Ho Hg Hk Hs Hl)
      as Heq.
    split; [done|]. split.
    + intros key h.
      destruct (getitem_preserves self key h) as (Hg' & Hm & Hwf).
      rewrite (eq_agrees _ other other_list Ho);
        [|by rewrite Hg'|done|auto|done].
      rewrite Heq. unfold materialized_eq. by rewrite Hm.
    + intros l' key h ->. simpl in Ho. injection Ho as <-.
      destruct (getitem_preserves l' key h) as (_ & Hm & Hwf).
      rewrite (eq_agrees self
                 (LazyListWithEq (__getitem__ loads l' key h).1.2)
                 _ eq_refl Hg Hk Hs (Hwf Hl)).
      rewrite Heq. unfold materialized_eq. by rewrite Hm.
Qed.
End lazy_eq_facts.

Lemma lazy_list_eq_agrees_with_materialized_witness :
  Lazy.LazilyUnpicklingListWithEqAndPersistentHashing.__eq__
    Lazy.LazilyUnpicklingListWithEqAndPersistentHashing.insns_by_text
    (Lazy.LazilyUnpicklingListWithEqAndPersistentHashing.LazyListWithEq
       Lazy.LazilyUnpicklingListWithEqAndPersistentHashing.insns_by_text_unpickled)
  = Lazy.LazilyUnpicklingListWithEqAndPersistentHashing.PyBool true /\
  Lazy.LazilyUnpicklingListWithEqAndPersistentHashing.__eq__
    Lazy.LazilyUnpicklingListWithEqAndPersistentHashing.insns_by_text
    (Lazy.LazilyUnpicklingListWithEqAndPersistentHashing.PlainList [])
  = Lazy.LazilyUnpicklingListWithEqAndPersistentHashing.PyBool false.
Proof.
  split.
  - destruct (lazy_list_eq_agrees_with_materialized id VStr String.eqb
      Lazy.LazilyUnpicklingListWithEqAndPersistentHashing.insns_by_text
      (Lazy.LazilyUnpicklingListWithEqAndPersistentHashing.LazyListWithEq
         Lazy.LazilyUnpicklingListWithEqAndPersistentHashing.insns_by_text_unpickled)
      _ eq_refl) as (_ & _ & H3).
    destruct H3 as [Heq _].
    + intros o. reflexivity.
    + intros x y. simpl. case_bool_decide as Hxy.
      * symmetry. by apply String.eqb_eq.
      * symmetry. by apply String.eqb_neq.
    + repeat constructor.
    + repeat constructor.
    + rewrite Heq. reflexivity.
  - apply (proj1 (lazy_list_eq_agrees_with_materialized id VStr String.eqb
      Lazy.LazilyUnpicklingListWithEqAndPersistentHashing.insns_by_text
      (Lazy.LazilyUnpicklingListWithEqAndPersistentHashing.PlainList [])
      [] eq_refl)).
    simpl. discriminate.
Defined.

(** C5 as stated fails in two ways.  Two instances built with
    different [eq_key_getter]s hold equal elements; while the right
    one's element is still pickled the comparison says unequal, after a
    read has materialized it the comparison says equal, and the
    materialized plain sequences are equal.  And two instances whose
    getter gives unequal elements the same key compare equal although
    the materialized plain sequences are unequal. *)
Lemma lazy_list_eq_depends_on_materialization :
  Lazy.LazilyUnpicklingListWithEqAndPersistentHashing.__eq__
    Lazy.LazilyUnpicklingListWithEqAndPersistentHashing.insns_by_text
    (Lazy.LazilyUnpicklingListWithEqAndPersistentHashing.LazyListWithEq
       Lazy.LazilyUnpicklingListWithEqAndPersistentHashing.insns_by_length_unpickled)
  = Lazy.LazilyUnpicklingListWithEqAndPersistentHashing.PyBool false /\
  Lazy.LazilyUnpicklingListWithEqAndPersistentHashing.__eq__
    Lazy.LazilyUnpicklingListWithEqAndPersistentHashing.insns_by_text
    (Lazy.LazilyUnpicklingListWithEqAndPersistentHashing.LazyListWithEq
       (Lazy.LazilyUnpicklingListWithEqAndPersistentHashing.__getitem__ id
          Lazy.LazilyUnpicklingListWithEqAndPersistentHashing.insns_by_length_unpickled
          0 Lazy.LazilyUnpicklingListWithEqAndPersistentHashing.heap0).1.2)
  = Lazy.LazilyUnpicklingListWithEqAndPersistentHashing.PyBool true /\
  Lazy.LazilyUnpicklingListWithEqAndPersistentHashing.materialized_eq id
    String.eqb
    (Lazy.LazilyUnpicklingListWithEqAndPersistentHashing._list
       Lazy.LazilyUnpicklingListWithEqAndPersistentHashing.insns_by_text)
    (Lazy.LazilyUnpicklingListWithEqAndPersistentHashing._list
       Lazy.LazilyUnpicklingListWithEqAndPersistentHashing.insns_by_length_unpickled)
  = true /\
  Lazy.LazilyUnpicklingListWithEqAndPersistentHashing.__eq__
    Lazy.LazilyUnpicklingListWithEqAndPersistentHashing.insns_by_length
    (Lazy.LazilyUnpicklingListWithEqAndPersistentHashing.LazyListWithEq
       Lazy.LazilyUnpicklingListWithEqAndPersistentHashing.other_insn_by_length)
  = Lazy.LazilyUnpicklingListWithEqAndPersistentHashing.PyBool true /\
  Lazy.LazilyUnpicklingListWithEqAndPersistentHashing.materialized_eq id
    String.eqb
    (Lazy.LazilyUnpicklingListWithEqAndPersistentHashing._list
       Lazy.LazilyUnpicklingListWithEqAndPersistentHashing.insns_by_length)
    (Lazy.LazilyUnpicklingListWithEqAndPersistentHashing._list
       Lazy.LazilyUnpicklingListWithEqAndPersistentHashing.other_insn_by_length)
  = false.
Proof. repeat split; vm_compute; reflexivity. Qed.

(** ** Tree: further properties *)

Section tree_more.
Import Tree.
Context {T : Type} `{Countable T}.
Implicit Types (t : Tree T).

Lemma children_Ok_inv t n (cs : gset T) :
  tree_inv t ->
  (children t n = Ok cs <-> _parent_to_children t !! n = Some cs).
Proof.
  intros Hinv. rewrite children_Ok. split; [tauto|]. intros Hn. split; [|done].
  apply elem_of_dom. rewrite <- (inv_keys t Hinv). apply elem_of_dom. eauto.
Qed.

Lemma is_leaf_Ok t n (b : bool) :
  is_leaf t n = Ok b <->
  exists cs, children t n = Ok cs /\ b = bool_decide (size cs = 0%nat).
Proof.
  unfold is_leaf. destruct (is_a_node t n) eqn:En.
  - destruct (children t n) as [cs|e]; simpl; naive_solver.
  - unfold children. rewrite En. naive_solver.
Qed.

(** [from_root] builds a tree that satisfies the invariant, whose only
    node is the root, with no parent and no children. *)
Theorem from_root_single_node (root : T) :
  tree_inv (from_root root) /\
  nodes (from_root root) = {[ root ]} /\
  is_root (from_root root) root = Ok true /\
  is_leaf (from_root root) root = Ok true /\
  parent (from_root root) root = Ok None /\
  children (from_root root) root = Ok ∅.
Proof.
  split; [apply from_root_inv|].
  split; [unfold nodes; simpl; apply dom_singleton_L|].
  assert (Hn : is_a_node (from_root root) root = true).
  { apply is_a_node_spec. simpl. rewrite lookup_singleton_eq. eauto. }
  unfold is_root, is_leaf, parent, children. rewrite Hn. simpl.
  by rewrite !lookup_singleton_eq.
Qed.

(** What a successful [add_node] returns: the new node is a leaf under
    the given parent, the parent's children grew by exactly the new
    node, the node set grew by exactly the new node, and every other
    node keeps its parent and its children. *)
Theorem add_node_effect t node par t' :
  tree_inv t ->
  add_node t node par = Ok t' ->
  is_a_node t node = false /\
  nodes t' = nodes t ∪ {[ node ]} /\
  parent t' node = Ok (Some par) /\
  is_leaf t' node = Ok true /\
  (exists siblings, children t par = Ok siblings /\
                    children t' par = Ok (siblings ∪ {[ node ]})) /\
  (forall n, n <> node -> parent t' n = parent t n) /\
  (forall n, n <> node -> n <> par -> children t' n = children t n).
Proof.
  intros Hinv Hadd.
  pose proof (add_node_inv t node par t' Hinv Hadd) as Hinv'.
  unfold add_node in Hadd.
  destruct (is_a_node t node) eqn:En; [done|].
  destruct (_parent_to_children t !! par) as [sib|] eqn:Ep; [|done].
  injection Hadd as <-.
  pose proof En as En'. apply is_a_node_false in En'.
  assert (Hpn : par <> node).
  { intros ->. assert (Hs : is_Some (_child_to_parent t !! node)).
    { apply elem_of_dom. rewrite <- (inv_keys t Hinv). apply elem_of_dom. eauto. }
    destruct Hs as [? Hs]. congruence. }
  split; [done|]. split.
  { unfold nodes. simpl. rewrite dom_insert_L. set_solver. }
  split.
  { apply parent_Ok. simpl. apply lookup_insert_eq. }
  split.
  { apply is_leaf_Ok. exists ∅. split; [|done].
    apply (children_Ok_inv _ _ _ Hinv'). simpl. apply lookup_insert_eq. }
  split.
  { exists sib. split.
    - by apply (children_Ok_inv _ _ _ Hinv).
    - apply (children_Ok_inv _ _ _ Hinv'). simpl.
      rewrite lookup_insert_ne by done. apply lookup_insert_eq. }
  split.
  - intros n Hn. unfold parent, is_a_node. simpl.
    by rewrite lookup_insert_ne.
  - intros n Hn Hnp. unfold children, is_a_node. simpl.
    by rewrite !lookup_insert_ne.
Qed.

(** How [add_node] fails: on a node that is already in the tree it
    raises [ValueError]; on a new node whose requested parent is not in
    the tree it raises [KeyError], from the lookup of the parent's
    children. *)
Theorem add_node_errors t node par :
  tree_inv t ->
  (is_a_node t node = true -> add_node t node par = Raise ValueError) /\
  (is_a_node t node = false -> is_a_node t par = false ->
   add_node t node par = Raise KeyError).
Proof.
  intros Hinv. unfold add_node. split.
  - by intros ->.
  - intros -> Hp. apply is_a_node_false in Hp.
    assert (Hn : _parent_to_children t !! par = None).
    { apply not_elem_of_dom. rewrite (inv_keys t Hinv).
      by apply not_elem_of_dom. }
    by rewrite Hn.
Qed.

Lemma tree_eta t : mkTree (_parent_to_children t) (_child_to_parent t) = t.
Proof. by destruct t. Qed.

Lemma move_node_eq t node p np sib ncs :
  _child_to_parent t !! node = Some (Some p) ->
  is_Some (_child_to_parent t !! p) ->
  is_Some (_child_to_parent t !! np) ->
  _parent_to_children t !! p = Some sib ->
  _parent_to_children t !! np = Some ncs ->
  move_node t node (Some np) =
    Ok (mkTree (<[np := ncs ∪ {[node]}]>
                  (<[p := sib ∖ {[node]}]> (_parent_to_children t)))
               (<[node := Some np]> (_child_to_parent t))).
Proof.
  intros Hn Hp Hnp Hs Hncs. unfold move_node.
  assert (Hr : is_root t node = Ok false).
  { apply is_root_Ok. by exists (Some p). }
  rewrite Hr. simpl.
  assert (Ha : is_a_node t node = true) by (apply is_a_node_spec; eauto).
  assert (Hb : is_a_node t np = true) by by apply is_a_node_spec.
  rewrite Ha, Hb. simpl.
  assert (Hpar : parent t node = Ok (Some p)) by by apply parent_Ok.
  rewrite Hpar. simpl.
  assert (Hc1 : children t p = Ok sib) by by apply children_Ok.
  assert (Hc2 : children t np = Ok ncs) by by apply children_Ok.
  by rewrite Hc1, Hc2.
Qed.

Lemma parent_is_node t n p :
  tree_inv t -> parent t n = Ok (Some p) ->
  exists sib, children t p = Ok sib /\ n ∈ sib.
Proof. intros Hinv Hp. by apply (inv_children_parent t Hinv). Qed.

(** [move_node] accepts every node of the tree as the new parent of a
    non-root node, the node itself and its descendants included: there
    is no check against cycles.  Afterwards the node's parent is the
    target, the target lists it as a child, the node set is unchanged
    and the stated invariant still holds. *)
Theorem move_node_accepts_any_target t node p np :
  tree_inv t ->
  parent t node = Ok (Some p) ->
  is_a_node t np = true ->
  exists t', move_node t node (Some np) = Ok t' /\
    tree_inv t' /\
    nodes t' = nodes t /\
    parent t' node = Ok (Some np) /\
    (exists cs, children t' np = Ok cs /\ node ∈ cs) /\
    (forall n, n <> node -> parent t' n = parent t n).
Proof.
  intros Hinv Hp Hnp.
  destruct (parent_is_node t node p Hinv Hp) as (sib & Hsib & Hin).
  apply children_Ok in Hsib as [Hpn Hsib].
  apply is_a_node_spec in Hnp.
  assert (Hncs : exists ncs, _parent_to_children t !! np = Some ncs).
  { apply elem_of_dom. rewrite (inv_keys t Hinv). by apply elem_of_dom. }
  destruct Hncs as [ncs Hncs]. apply parent_Ok in Hp.
  pose proof (move_node_eq t node p np sib ncs Hp Hpn Hnp Hsib Hncs) as Hm.
  eexists. split; [exact Hm|].
  pose proof (move_node_inv t node (Some np) _ Hinv Hm) as Hinv'.
  split; [done|]. split.
  { unfold nodes. simpl. rewrite dom_insert_L.
    assert (node ∈ dom (_child_to_parent t)) by (apply elem_of_dom; eauto).
    set_solver. }
  assert (Hpar' : parent (mkTree (<[np := ncs ∪ {[node]}]>
                  (<[p := sib ∖ {[node]}]> (_parent_to_children t)))
               (<[node := Some np]> (_child_to_parent t))) node
                  = Ok (Some np)).
  { apply parent_Ok. simpl. apply lookup_insert_eq. }
  split; [done|]. split.
  { by apply (inv_children_parent _ Hinv'). }
  intros n Hn. unfold parent, is_a_node. simpl. by rewrite lookup_insert_ne.
Qed.

(** Moving a node under the parent it already has returns the tree
    unchanged. *)
Theorem move_node_same_parent t node p :
  tree_inv t ->
  parent t node = Ok (Some p) ->
  move_node t node (Some p) = Ok t.
Proof.
  intros Hinv Hp.
  destruct (parent_is_node t node p Hinv Hp) as (sib & Hsib & Hin).
  apply children_Ok in Hsib as [Hpn Hsib]. apply parent_Ok in Hp.
  rewrite (move_node_eq t node p p sib sib Hp Hpn Hpn Hsib Hsib).
  f_equal. rewrite <- (tree_eta t) at 3. f_equal.
  - rewrite insert_insert_eq. apply insert_id. rewrite Hsib. f_equal.
    set_solver.
  - by apply insert_id.
Qed.

(** After a successful [move_node] to a different parent, the old
    parent no longer lists the node, and its other children are as
    before. *)
Theorem move_node_leaves_old_parent t node p np t' :
  tree_inv t ->
  parent t node = Ok (Some p) ->
  p <> np ->
  move_node t node (Some np) = Ok t' ->
  exists sib, children t p = Ok sib /\
              children t' p = Ok (sib ∖ {[ node ]}).
Proof.
  intros Hinv Hp Hne Hm.
  pose proof (move_node_inv t node (Some np) t' Hinv Hm) as Hinv'.
  apply move_node_Ok in Hm
    as (p' & np' & sib & ncs & [= <-] & Hn & Hnp & Hs & Hncs & ->).
  apply parent_Ok in Hp. assert (p' = p) by congruence. subst p'.
  exists sib. split.
  - by apply (children_Ok_inv _ _ _ Hinv).
  - apply (children_Ok_inv _ _ _ Hinv'). simpl.
    rewrite lookup_insert_ne by done. apply lookup_insert_eq.
Qed.

Lemma rename_node_eq t node new_id par cs :
  _child_to_parent t !! node = Some par ->
  _child_to_parent t !! new_id = None ->
  _parent_to_children t !! node = Some cs ->
  let c2p := set_fold (fun child m => <[child := Some new_id]> m)
               (<[new_id := par]> (delete node (_child_to_parent t))) cs in
  let p2c := <[new_id := cs]> (delete node (_parent_to_children t)) in
  match par with
  | None => rename_node t node new_id = Ok (mkTree p2c c2p)
  | Some p =>
      forall pcs, is_Some (_child_to_parent t !! p) ->
        _parent_to_children t !! p = Some pcs ->
        rename_node t node new_id =
          Ok (mkTree (<[p := (pcs ∖ {[node]}) ∪ {[new_id]}]> (delete p p2c)) c2p)
  end.
Proof.
  intros Hn Hi Hcs c2p p2c. unfold rename_node.
  assert (Ha : is_a_node t node = true) by (apply is_a_node_spec; eauto).
  assert (Hb : is_a_node t new_id = false) by by apply is_a_node_false.
  assert (Hp : parent t node = Ok par) by by apply parent_Ok.
  assert (Hc : children t node = Ok cs) by (apply children_Ok; eauto).
  rewrite Ha, Hb, Hp, Hc. simpl.
  destruct par as [p|]; [|done].
  intros pcs Hpn Hpcs.
  assert (Hc' : children t p = Ok pcs) by by apply children_Ok.
  by rewrite Hc'.
Qed.

(** What a successful [rename_node] of a node that is not its own
    parent returns: the old name is gone and the new name is a node in
    its place, with the old name's parent and children; the children
    now have the new name as parent, and the parent lists the new name
    instead of the old one. *)
Theorem rename_node_effect t node new_id t' :
  tree_inv t ->
  parent t node <> Ok (Some node) ->
  rename_node t node new_id = Ok t' ->
  nodes t' = (nodes t ∖ {[ node ]}) ∪ {[ new_id ]} /\
  is_a_node t' node = false /\
  parent t' new_id = parent t node /\
  children t' new_id = children t node /\
  (forall c cs, children t node = Ok cs -> c ∈ cs ->
                parent t' c = Ok (Some new_id)) /\
  (forall p, parent t node = Ok (Some p) ->
     exists pcs, children t p = Ok pcs /\
       children t' p = Ok ((pcs ∖ {[ node ]}) ∪ {[ new_id ]})).
Proof.
  intros Hinv Hself Hren.
  pose proof (rename_node_inv t node new_id t' Hinv Hself Hren) as Hinv'.
  rewrite parent_Ok in Hself.
  apply rename_node_Ok in Hren as (par & cs & Hn & Hi & Hcs & Ht').
  pose proof (proj1 (tree_inv_raw t) Hinv) as (Hk & _ & Hc).
  assert (Hin : forall c, c ∈ cs <-> _child_to_parent t !! c = Some (Some node)).
  { intros c. rewrite <- Hc. split; [eauto|]. intros [s [Hs ?]]. congruence. }
  assert (Hncs : node ∉ cs) by (rewrite Hin; congruence).
  assert (Hics : new_id ∉ cs) by (rewrite Hin; congruence).
  assert (Hni : node <> new_id) by congruence.
  assert (Hc2p : forall k, _child_to_parent t' !! k =
            if decide (k ∈ cs) then Some (Some new_id)
            else if decide (k = new_id) then Some par
            else if decide (k = node) then None
            else _child_to_parent t !! k).
  { intros k. destruct par as [p|].
    - destruct Ht' as (pcs & _ & ->). apply rename_c2p_lookup.
    - cbv zeta in Ht'. subst t'. apply rename_c2p_lookup. }
  assert (Hpar_t : parent t node = Ok par) by by apply parent_Ok.
  assert (Hch_t : children t node = Ok cs)
    by by apply (children_Ok_inv _ _ _ Hinv).
  split.
  { unfold nodes. apply set_eq. intros k.
    rewrite elem_of_union, elem_of_difference, !elem_of_singleton,
      !elem_of_dom, Hc2p.
    destruct (decide (k ∈ cs)) as [Hkc|Hkc].
    - split; [|eauto]. intros _. left. apply Hin in Hkc as Hkc'.
      split; [eauto|]. intros ->. done.
    - destruct (decide (k = new_id)) as [->|]; [split; eauto|].
      destruct (decide (k = node)) as [->|].
      + split; [intros [? ?]; done|]. intros [[_ ?]|?]; done.
      + split; [intros ?; by left|]. intros [[? _]|?]; done. }
  split.
  { apply is_a_node_false. rewrite Hc2p.
    rewrite decide_False, decide_False, decide_True by done. done. }
  split.
  { rewrite Hpar_t. apply parent_Ok. rewrite Hc2p.
    by rewrite decide_False, decide_True by done. }
  split.
  { rewrite Hch_t. apply (children_Ok_inv _ _ _ Hinv').
    destruct par as [p|].
    - destruct Ht' as (pcs & Hpcs & ->). simpl.
      rewrite rename_p2c_parent_lookup.
      assert (new_id <> p).
      { intros <-. apply Hc in Hn as [s [Hs _]].
        assert (Hsome : is_Some (_child_to_parent t !! new_id)).
        { apply elem_of_dom. rewrite <- Hk. apply elem_of_dom. eauto. }
        destruct Hsome as [? ?]. congruence. }
      by rewrite decide_False, decide_True by done.
    - cbv zeta in Ht'. subst t'. simpl. rewrite rename_p2c_lookup.
      by rewrite decide_True. }
  split.
  { intros c cs' Hcs' Hc'. rewrite Hch_t in Hcs'. injection Hcs' as <-.
    apply parent_Ok. rewrite Hc2p. by rewrite decide_True. }
  intros p Hp. rewrite Hpar_t in Hp. injection Hp as ->.
  destruct Ht' as (pcs & Hpcs & ->). exists pcs. split.
  - by apply (children_Ok_inv _ _ _ Hinv).
  - apply (children_Ok_inv _ _ _ Hinv'). simpl.
    rewrite rename_p2c_parent_lookup. by rewrite decide_True.
Qed.

(** Renaming a node and then renaming it back returns the original
    tree. *)
Theorem rename_node_round_trip t node new_id t' :
  tree_inv t ->
  parent t node <> Ok (Some node) ->
  rename_node t node new_id = Ok t' ->
  rename_node t' new_id node = Ok t.
Proof.
  intros Hinv Hself Hren.
  pose proof (rename_node_inv t node new_id t' Hinv Hself Hren) as Hinv'.
  rewrite parent_Ok in Hself.
  apply rename_node_Ok in Hren as (par & cs & Hn & Hi & Hcs & Ht').
  pose proof (proj1 (tree_inv_raw t) Hinv) as (Hk & _ & Hc).
  assert (Hin : forall c, c ∈ cs <-> _child_to_parent t !! c = Some (Some node)).
  { intros c. rewrite <- Hc. split; [eauto|]. intros [s [Hs ?]]. congruence. }
  assert (Hncs : node ∉ cs) by (rewrite Hin; congruence).
  assert (Hics : new_id ∉ cs) by (rewrite Hin; congruence).
  assert (Hni : node <> new_id) by congruence.
  assert (Hip : _parent_to_children t !! new_id = None).
  { apply not_elem_of_dom. rewrite Hk. by apply not_elem_of_dom. }
  destruct par as [p|].
  - destruct Ht' as (pcs & Hpcs & ->).
    assert (Hpn : p <> node) by congruence.
    assert (Hpi : p <> new_id) by congruence.
    assert (Hpin : forall c, c ∈ pcs <-> _child_to_parent t !! c = Some (Some p)).
    { intros c. rewrite <- Hc. split; [eauto|]. intros [s [Hs ?]]. congruence. }
    assert (Hps : is_Some (_child_to_parent t !! p)).
    { apply elem_of_dom. rewrite <- Hk. apply elem_of_dom. eauto. }
    match goal with |- rename_node ?t1 _ _ = _ =>
      pose proof (rename_node_eq t1 new_id node (Some p) cs) as Hback end.
    simpl in Hback.
    rewrite Hback with (pcs := (pcs ∖ {[node]}) ∪ {[new_id]}); clear Hback.
    + f_equal. rewrite <- (tree_eta t) at 3. f_equal.
      * apply map_eq. intros k.
        rewrite rename_p2c_parent_lookup, rename_p2c_parent_lookup.
        destruct (decide (k = p)) as [->|].
        { rewrite Hpcs. f_equal. apply set_eq. intros c.
          assert (node ∈ pcs) by by apply Hpin.
          assert (new_id ∉ pcs) by (rewrite Hpin; congruence).
          set_unfold. destruct (decide (c = node)); naive_solver. }
        destruct (decide (k = node)) as [->|]; [done|].
        destruct (decide (k = new_id)) as [->|]; [done|]. done.
      * apply map_eq. intros k.
        rewrite rename_c2p_lookup, rename_c2p_lookup.
        destruct (decide (k ∈ cs)) as [Hkc|]; [symmetry; by apply Hin|].
        destruct (decide (k = node)) as [->|]; [done|].
        destruct (decide (k = new_id)) as [->|]; [done|]. done.
    + rewrite rename_c2p_lookup.
      by rewrite decide_False, decide_True by done.
    + rewrite rename_c2p_lookup.
      by rewrite decide_False, decide_False, decide_True by done.
    + rewrite rename_p2c_parent_lookup.
      by rewrite decide_False, decide_True by done.
    + rewrite rename_c2p_lookup.
      destruct (decide (p ∈ cs)); [eauto|].
      by rewrite decide_False, decide_False by done.
    + rewrite rename_p2c_parent_lookup. by rewrite decide_True.
  - cbv zeta in Ht'. subst t'.
    match goal with |- rename_node ?t1 _ _ = _ =>
      pose proof (rename_node_eq t1 new_id node None cs) as Hback end.
    simpl in Hback. rewrite Hback; clear Hback.
    + f_equal. rewrite <- (tree_eta t) at 3. f_equal.
      * apply map_eq. intros k.
        rewrite rename_p2c_lookup, rename_p2c_lookup.
        destruct (decide (k = node)) as [->|]; [done|].
        destruct (decide (k = new_id)) as [->|]; [done|]. done.
      * apply map_eq. intros k.
        rewrite rename_c2p_lookup, rename_c2p_lookup.
        destruct (decide (k ∈ cs)) as [Hkc|]; [symmetry; by apply Hin|].
        destruct (decide (k = node)) as [->|]; [done|].
        destruct (decide (k = new_id)) as [->|]; [done|]. done.
    + rewrite rename_c2p_lookup.
      by rewrite decide_False, decide_True by done.
    + rewrite rename_c2p_lookup.
      by rewrite decide_False, decide_False, decide_True by done.
    + rewrite rename_p2c_lookup. by rewrite decide_True.
Qed.
End tree_more.

Lemma root_with_child_inv : Tree.tree_inv Tree.root_with_child.
Proof.
  apply (add_node_inv (Tree.from_root "R"%string) "A"%string "R"%string);
    [apply from_root_inv|vm_compute; reflexivity].
Qed.

Lemma two_children_inv : Tree.tree_inv Tree.two_children.
Proof.
  apply (add_node_inv Tree.root_with_child "B"%string "R"%string);
    [apply root_with_child_inv|vm_compute; reflexivity].
Qed.

Lemma add_node_effect_witness :
  Tree.nodes Tree.root_with_child
    = Tree.nodes (Tree.from_root "R"%string) ∪ {[ "A"%string ]} /\
  Tree.parent Tree.root_with_child "A"%string = Ok (Some "R"%string) /\
  Tree.is_leaf Tree.root_with_child "A"%string = Ok true.
Proof.
  destruct (add_node_effect (Tree.from_root "R"%string) "A"%string "R"%string
              Tree.root_with_child (from_root_inv "R"%string))
    as (_ & H1 & H2 & H3 & _); [vm_compute; reflexivity|].
  split; [exact H1|]. split; [exact H2|exact H3].
Defined.

Lemma add_node_errors_witness :
  Tree.add_node Tree.root_with_child "A"%string "R"%string = Raise ValueError /\
  Tree.add_node Tree.root_with_child "B"%string "Z"%string = Raise KeyError.
Proof.
  destruct (add_node_errors Tree.root_with_child "A"%string "R"%string
              root_with_child_inv) as [H1 _].
  destruct (add_node_errors Tree.root_with_child "B"%string "Z"%string
              root_with_child_inv) as [_ H2].
  split; [apply H1|apply H2]; vm_compute; reflexivity.
Defined.

Lemma move_node_accepts_any_target_witness :
  exists t', Tree.move_node Tree.root_with_child "A"%string (Some "A"%string)
             = Ok t' /\
             Tree.parent t' "A"%string = Ok (Some "A"%string).
Proof.
  destruct (move_node_accepts_any_target Tree.root_with_child
              "A"%string "R"%string "A"%string root_with_child_inv)
    as (t' & H1 & _ & _ & H2 & _); [vm_compute; reflexivity..|].
  exists t'. split; [exact H1|exact H2].
Defined.

Lemma move_node_same_parent_witness :
  Tree.move_node Tree.root_with_child "A"%string (Some "R"%string)
  = Ok Tree.root_with_child.
Proof.
  apply (move_node_same_parent Tree.root_with_child "A"%string "R"%string
           root_with_child_inv).
  vm_compute. reflexivity.
Defined.

Lemma move_node_leaves_old_parent_witness :
  exists sib, Tree.children Tree.two_children "R"%string = Ok sib /\
              Tree.children Tree.b_under_a "R"%string
              = Ok (sib ∖ {[ "B"%string ]}).
Proof.
  apply (move_node_leaves_old_parent Tree.two_children "B"%string
           "R"%string "A"%string Tree.b_under_a two_children_inv).
  - vm_compute. reflexivity.
  - discriminate.
  - vm_compute. reflexivity.
Defined.

Lemma rename_node_effect_witness :
  Tree.nodes Tree.root_with_child_renamed
    = (Tree.nodes Tree.root_with_child ∖ {[ "A"%string ]}) ∪ {[ "B"%string ]} /\
  Tree.parent Tree.root_with_child_renamed "B"%string
    = Tree.parent Tree.root_with_child "A"%string.
Proof.
  destruct (rename_node_effect Tree.root_with_child "A"%string "B"%string
              Tree.root_with_child_renamed root_with_child_inv)
    as (H1 & _ & H2 & _).
  - vm_compute. discriminate.
  - vm_compute. reflexivity.
  - split; [exact H1|exact H2].
Defined.

Lemma rename_node_round_trip_witness :
  Tree.rename_node Tree.root_with_child_renamed "B"%string "A"%string
  = Ok Tree.root_with_child.
Proof.
  apply (rename_node_round_trip Tree.root_with_child "A"%string "B"%string
           Tree.root_with_child_renamed root_with_child_inv).
  - vm_compute. discriminate.
  - vm_compute. reflexivity.
Defined.

(** ** Tree: depth *)

Section tree_depth.
Import Tree.
Context {T : Type} `{Countable T}.
Implicit Types (t : Tree T).

Lemma grown_inv t : grown t -> tree_inv t.
Proof.
  induction 1 as [root|t t' node par _ IH Hadd]; [apply from_root_inv|].
  by apply (add_node_inv t node par).
Qed.

Lemma depth_mono fuel t n r :
  depth fuel t n = Some r -> depth (S fuel) t n = Some r.
Proof.
  revert n r. induction fuel as [|f IH]; intros n r; [done|].
  intros Hd. simpl in Hd. change (depth (S (S f)) t n) with
    (if negb (is_a_node t n) then Some (Raise ValueError)
     else match is_root t n with
          | Raise e => Some (Raise e)
          | Ok true => Some (Ok O)
          | Ok false =>
              match parent t n with
              | Raise e => Some (Raise e)
              | Ok None => Some (Raise ValueError)
              | Ok (Some p) =>
                  match depth (S f) t p with
                  | None => None
                  | Some (Raise e) => Some (Raise e)
                  | Some (Ok d) => Some (Ok (S d))
                  end
              end
          end).
  destruct (negb (is_a_node t n)); [done|].
  destruct (is_root t n) as [[|]|e]; try done.
  destruct (parent t n) as [[p|]|e]; try done.
  destruct (depth f t p) as [r'|] eqn:Ed; [|done].
  by rewrite (IH p r' Ed).
Qed.

Lemma depth_step fuel t n p d :
  parent t n = Ok (Some p) ->
  depth fuel t p = Some (Ok d) ->
  depth (S fuel) t n = Some (Ok (S d)).
Proof.
  intros Hp Hd. simpl.
  assert (Hn : is_a_node t n = true).
  { apply is_a_node_spec. apply parent_Ok in Hp. eauto. }
  assert (Hr : is_root t n = Ok false).
  { apply is_root_Ok. apply parent_Ok in Hp. by exists (Some p). }
  by rewrite Hn, Hr, Hp, Hd.
Qed.

(** [depth] is 0 at the root and one more than the parent's depth at
    every other node; on a value that is not a node it raises
    [ValueError]. *)
Theorem depth_cases fuel t n :
  (is_root t n = Ok true -> depth (S fuel) t n = Some (Ok O)) /\
  (forall p d, parent t n = Ok (Some p) ->
     depth fuel t p = Some (Ok d) ->
     depth (S fuel) t n = Some (Ok (S d))) /\
  (is_a_node t n = false -> depth (S fuel) t n = Some (Raise ValueError)).
Proof.
  split; [|split].
  - intros Hr. simpl. rewrite Hr.
    unfold is_root in Hr. by destruct (is_a_node t n).
  - intros p d. apply depth_step.
  - intros Hn. simpl. by rewrite Hn.
Qed.

Lemma depth_add_other fuel t node par t' n :
  tree_inv t -> add_node t node par = Ok t' ->
  is_a_node t n = true ->
  depth fuel t' n = depth fuel t n.
Proof.
  intros Hinv Hadd.
  destruct (add_node_effect t node par t' Hinv Hadd)
    as (Hnew & Hnodes & _ & _ & _ & Hpar & _).
  assert (Hnode : forall m, is_a_node t m = true -> is_a_node t' m = true).
  { intros m Hm. apply is_a_node_spec, elem_of_dom.
    change (m ∈ nodes t'). rewrite Hnodes.
    apply is_a_node_spec, elem_of_dom in Hm. set_solver. }
  revert n. induction fuel as [|f IH]; intros n Hn; [done|].
  assert (Hne : n <> node) by congruence.
  simpl. rewrite Hn, (Hnode n Hn). simpl.
  assert (Hr : is_root t' n = is_root t n).
  { unfold is_root. by rewrite Hn, (Hnode n Hn), (Hpar n Hne). }
  rewrite Hr, (Hpar n Hne).
  destruct (is_root t n) as [[|]|e]; try done.
  destruct (parent t n) as [[p|]|e] eqn:Ep; try done.
  rewrite IH; [done|].
  apply (inv_children_parent t Hinv) in Ep as (cs & Hcs & _).
  apply children_Ok in Hcs as [Hp _]. by apply is_a_node_spec.
Qed.

(** On a tree grown from [from_root] by [add_node], [depth] returns at
    every node, within as many nested calls as the tree has nodes, and
    the depth is smaller than the number of nodes. *)
Theorem depth_returns_on_grown t n :
  grown t -> is_a_node t n = true ->
  exists d, depth (size (nodes t)) t n = Some (Ok d) /\
            (d < size (nodes t))%nat.
Proof.
  intros Hg. revert n.
  induction Hg as [root|t t' node par Hg IH Hadd]; intros n Hn.
  - destruct (from_root_single_node root) as (_ & Hnodes & Hr & _).
    rewrite Hnodes, size_singleton.
    assert (n = root).
    { apply is_a_node_spec, elem_of_dom in Hn. change (n ∈ nodes (from_root root)) in Hn.
      rewrite Hnodes in Hn. set_solver. }
    subst n. exists O. split; [|lia].
    by apply (proj1 (depth_cases 0 (from_root root) root)).
  - pose proof (grown_inv t Hg) as Hinv.
    destruct (add_node_effect t node par t' Hinv Hadd)
      as (Hnew & Hnodes & Hparent & _ & (sib & Hsib & _) & _ & _).
    assert (Hsize : size (nodes t') = S (size (nodes t))).
    { rewrite Hnodes, size_union, size_singleton; [lia|].
      apply is_a_node_false, not_elem_of_dom in Hnew.
      unfold nodes. set_solver. }
    rewrite Hsize.
    destruct (decide (n = node)) as [->|Hne].
    + assert (Hp : is_a_node t par = true).
      { apply children_Ok in Hsib as [Hp _]. by apply is_a_node_spec. }
      destruct (IH par Hp) as (d & Hd & Hlt).
      exists (S d). split; [|lia].
      apply depth_step with par; [done|].
      by rewrite (depth_add_other _ t node par t' par Hinv Hadd Hp).
    + assert (Hn' : is_a_node t n = true).
      { apply is_a_node_spec, elem_of_dom. change (n ∈ nodes t).
        apply is_a_node_spec, elem_of_dom in Hn. change (n ∈ nodes t') in Hn.
        rewrite Hnodes in Hn. set_solver. }
      destruct (IH n Hn') as (d & Hd & Hlt).
      exists d. split; [|lia].
      apply depth_mono.
      by rewrite (depth_add_other _ t node par t' n Hinv Hadd Hn').
Qed.

(** [depth] of a node that is its own parent never returns, whatever
    the bound on nested calls; [move_node] produces such a node when a
    node is moved under itself. *)
Theorem depth_diverges_on_self_parent t n :
  parent t n = Ok (Some n) -> forall fuel, depth fuel t n = None.
Proof.
  intros Hp fuel. induction fuel as [|f IH]; [done|].
  simpl.
  assert (Hn : is_a_node t n = true).
  { apply is_a_node_spec. apply parent_Ok in Hp. eauto. }
  assert (Hr : is_root t n = Ok false).
  { apply is_root_Ok. apply parent_Ok in Hp. by exists (Some n). }
  by rewrite Hn, Hr, Hp, IH.
Qed.
End tree_depth.

Lemma root_with_child_grown : Tree.grown Tree.root_with_child.
Proof.
  apply (Tree.grown_add (Tree.from_root "R"%string) _ "A"%string "R"%string);
    [constructor|vm_compute; reflexivity].
Qed.

Lemma depth_cases_witness :
  Tree.depth 1 Tree.root_with_child "R"%string = Some (Ok 0%nat) /\
  Tree.depth 2 Tree.root_with_child "A"%string = Some (Ok 1%nat) /\
  Tree.depth 1 Tree.root_with_child "Z"%string = Some (Raise ValueError).
Proof.
  split; [|split].
  - apply (proj1 (depth_cases 0 Tree.root_with_child "R"%string)).
    vm_compute. reflexivity.
  - apply (proj1 (proj2 (depth_cases 1 Tree.root_with_child "A"%string))
             "R"%string 0%nat); vm_compute; reflexivity.
  - apply (proj2 (proj2 (depth_cases 0 Tree.root_with_child "Z"%string))).
    vm_compute. reflexivity.
Defined.

Lemma depth_returns_on_grown_witness :
  exists d, Tree.depth (size (Tree.nodes Tree.root_with_child))
              Tree.root_with_child "A"%string = Some (Ok d) /\
            (d < size (Tree.nodes Tree.root_with_child))%nat.
Proof.
  apply (depth_returns_on_grown Tree.root_with_child "A"%string
           root_with_child_grown).
  vm_compute. reflexivity.
Defined.

Lemma depth_diverges_on_self_parent_witness :
  Tree.depth 100 Tree.self_parent_tree "A"%string = None.
Proof.
  apply (depth_diverges_on_self_parent Tree.self_parent_tree "A"%string).
  vm_compute. reflexivity.
Defined.

(** ** Optional: further properties *)

Section optional_more.
Import Optional.

(** Two [Optional]s are equal exactly when both are empty, or both hold
    a value and the values are equal. *)
Theorem optional_eq_on_optionals (a b : option pyval) :
  __eq__ (__init__ a) (OptionalObj (__init__ b)) =
  Ok (VBool match a, b with
            | None, None => true
            | Some x, Some y => py_eq x y
            | _, _ => false
            end).
Proof. by destruct a, b. Qed.

(** Pickling round trip: the state [__getstate__] returns, given to
    [__setstate__] on a blank object, rebuilds the wrapper. *)
Theorem optional_state_round_trip (v : option pyval) :
  exists state, __getstate__ (__init__ v) = Ok state /\
                __setstate__ blank state = __init__ v.
Proof. destruct v; eexists; split; reflexivity. Qed.

(** The comparison is duck typed: an empty [Optional] compares equal to
    any object whose [has_value] attribute is false, and one holding a
    value compares unequal to it, whatever the object is. *)
Theorem optional_eq_duck_typed (o : Optional.t) (attrs : gmap string pyval)
    (hv : pyval) :
  attrs !! "has_value"%string = Some hv ->
  truthy hv = false ->
  __eq__ o (AttrObj attrs) = Ok (VBool (negb (has_value o))).
Proof.
  intros Ha Hf. unfold __eq__, getattr. rewrite Ha. simpl. rewrite Hf.
  by destruct (has_value o).
Qed.
End optional_more.

Lemma optional_eq_duck_typed_witness :
  Optional.__eq__ (Optional.__init__ None)
    (Optional.AttrObj {[ "has_value"%string := VInt 0 ]})
  = Ok (VBool true).
Proof.
  apply (optional_eq_duck_typed (Optional.__init__ None)
           {[ "has_value"%string := VInt 0 ]} (VInt 0));
    vm_compute; reflexivity.
Defined.

(** ** memoize_on_disk: further properties *)

Section memoize_more.
Import Memoize.
Context {S : Type}.
Context (cache_getitem : S -> cache_key -> result pyval * S).
Context (cache_store_if_not_present :
           S -> cache_key -> pyval -> result () * S).
Context (func : pyfunction).

#[local] Abbreviation wrapper :=
  (wrapper cache_getitem cache_store_if_not_present func).
#[local] Abbreviation flag := "_no_memoize_on_disk"%string.

(** On a hit the stored value is returned as it is: the wrapped
    function is not called (whatever it would return or raise) and
    nothing is stored. *)
Theorem hit_returns_stored_value args kwargs (w : world S) v :
  CACHING_ENABLED w = true ->
  bypass_requested kwargs = false ->
  (cache_getitem (transform_cache w)
     (mkKey (__qualname__ func) (__name__ func) args (delete flag kwargs))).1
  = Ok v ->
  (wrapper args kwargs w).1 = Ok v /\
  exists tail, trace (wrapper args kwargs w).2 = trace w ++ tail /\
               filter is_call tail = [] /\
               Forall (fun e => forall k x, e <> EvStoreIfNotPresent k x) tail.
Proof.
  intros He Hb Hg.
  destruct (cache_getitem _ _) as [r s] eqn:Eg. simpl in Hg. subst r.
  rewrite (wrapper_hit _ _ _ args kwargs w v s He Hb Eg). simpl.
  split; [done|]. eexists. split; [done|]. split; [done|].
  repeat constructor; intros; discriminate.
Qed.

(** When the key is absent and the wrapped function raises, the call
    raises the same exception and nothing is stored: the store is left
    as the lookup left it. *)
Theorem function_failure_stores_nothing args kwargs (w : world S) e :
  CACHING_ENABLED w = true ->
  bypass_requested kwargs = false ->
  let key := mkKey (__qualname__ func) (__name__ func) args
                   (delete flag kwargs) in
  (cache_getitem (transform_cache w) key).1 = Raise KeyError ->
  __call__ func args (delete flag kwargs) = Raise e ->
  (wrapper args kwargs w).1 = Raise e /\
  transform_cache (wrapper args kwargs w).2
  = (cache_getitem (transform_cache w) key).2 /\
  exists tail, trace (wrapper args kwargs w).2 = trace w ++ tail /\
               Forall (fun ev => forall k x, ev <> EvStoreIfNotPresent k x)
                      tail.
Proof.
  intros He Hb key Hg Hf.
  destruct (cache_getitem (transform_cache w) key) as [r s] eqn:Eg.
  simpl in Hg. subst r.
  rewrite (wrapper_miss _ _ _ args kwargs w s He Hb Eg). cbv zeta.
  rewrite Hf. simpl. split; [done|]. split; [done|].
  eexists. split; [done|]. repeat constructor; intros; discriminate.
Qed.

(** A false [_no_memoize_on_disk] is the same as none: the keyword is
    popped before the cache key is built and before the function is
    called. *)
Theorem falsy_flag_is_dropped args kwargs (w : world S) (v : pyval) :
  CACHING_ENABLED w = true ->
  truthy v = false ->
  wrapper args (<[flag := v]> kwargs) w = wrapper args (delete flag kwargs) w.
Proof.
  intros He Hv. unfold Memoize.wrapper. rewrite He. simpl.
  rewrite lookup_insert_eq, lookup_delete_eq. simpl. rewrite Hv.
  by rewrite delete_insert_eq, delete_delete_eq.
Qed.
End memoize_more.

Lemma hit_returns_stored_value_witness :
  Memoize.second_call.1 = Ok (VInt 6).
Proof.
  apply (hit_returns_stored_value Memoize.dict_getitem
           Memoize.dict_store_if_not_present Memoize.double
           [VInt 3] ∅ Memoize.first_call.2 (VInt 6));
    vm_compute; reflexivity.
Defined.

Lemma function_failure_stores_nothing_witness :
  (Memoize.wrapper Memoize.dict_getitem Memoize.dict_store_if_not_present
     Memoize.double [VNone] ∅ Memoize.world0).1 = Raise TypeError /\
  Memoize.transform_cache
    (Memoize.wrapper Memoize.dict_getitem Memoize.dict_store_if_not_present
       Memoize.double [VNone] ∅ Memoize.world0).2 = [].
Proof.
  destruct (function_failure_stores_nothing Memoize.dict_getitem
              Memoize.dict_store_if_not_present Memoize.double
              [VNone] ∅ Memoize.world0 TypeError) as (H1 & H2 & _);
    try (vm_compute; reflexivity).
  split; [exact H1|]. rewrite H2. vm_compute. reflexivity.
Defined.

Lemma falsy_flag_is_dropped_witness :
  Memoize.wrapper Memoize.dict_getitem Memoize.dict_store_if_not_present
    Memoize.double [VInt 3]
    (<[ "_no_memoize_on_disk"%string := VBool false ]> ∅) Memoize.world0
  = Memoize.wrapper Memoize.dict_getitem Memoize.dict_store_if_not_present
      Memoize.double [VInt 3]
      (delete "_no_memoize_on_disk"%string ∅) Memoize.world0.
Proof.
  apply (falsy_flag_is_dropped Memoize.dict_getitem
           Memoize.dict_store_if_not_present Memoize.double
           [VInt 3] ∅ Memoize.world0 (VBool false)); reflexivity.
Defined.

(** ** Lazily unpickling containers: further properties *)

Section lazy_more.
Import Lazy.
Context {K : Type} `{Countable K} {V : Type}.
Context (loads : string -> V) (dumps : V -> string).

(** [__getstate__] of the dictionary keeps the key set; a slot that is
    still pickled is passed through with its bytes unchanged, a
    materialized one is pickled; with a codec that round-trips, every
    entry of the state unpickles to the value its slot stands for. *)
Theorem dict_getstate_entries (d : LazilyUnpicklingDict.t K V) :
  dom (LazilyUnpicklingDict.__getstate__ dumps d)
    = dom (LazilyUnpicklingDict._map d) /\
  (forall key it bs,
     LazilyUnpicklingDict._map d !! key = Some it ->
     pickled_bytes it = Some bs ->
     LazilyUnpicklingDict.__getstate__ dumps d !! key = Some (mkPickled bs)) /\
  (forall key o,
     LazilyUnpicklingDict._map d !! key = Some (Value o) ->
     LazilyUnpicklingDict.__getstate__ dumps d !! key
     = Some (mkPickled (dumps (content o)))) /\
  ((forall v, loads (dumps v) = v) ->
   forall key it,
     LazilyUnpicklingDict._map d !! key = Some it ->
     exists p, LazilyUnpicklingDict.__getstate__ dumps d !! key = Some p /\
               loads (objstring p) = materialized loads it).
Proof.
  unfold LazilyUnpicklingDict.__getstate__. split; [apply dom_fmap_L|].
  split; [|split].
  - intros key it bs Hk Hb. rewrite lookup_fmap, Hk. simpl. f_equal.
    destruct it; simpl in *; congruence.
  - intros key o Hk. by rewrite lookup_fmap, Hk.
  - intros Hrt key it Hk. rewrite lookup_fmap, Hk. simpl.
    eexists. split; [done|]. destruct it; simpl; [done|done|apply Hrt].
Qed.

(** A write stores the value as it is: the next read of the key returns
    that very object without unpickling anything, and the other slots
    are untouched. *)
Theorem dict_setitem_then_getitem (d : LazilyUnpicklingDict.t K V) key o h :
  let d' := LazilyUnpicklingDict.__setitem__ d key (Value o) in
  LazilyUnpicklingDict.__getitem__ loads d' key h = (Ok o, d', h) /\
  forall key', key' <> key ->
    LazilyUnpicklingDict._map d' !! key' = LazilyUnpicklingDict._map d !! key'.
Proof.
  intros d'. split.
  - apply dict_getitem_value. simpl. apply lookup_insert_eq.
  - intros key' Hne. simpl. by rewrite lookup_insert_ne.
Qed.

(** Reads and deletions of a missing key raise [KeyError] and change
    nothing; a list index outside [-len, len) raises [IndexError] and
    changes nothing. *)
Theorem lazy_missing_slot_errors :
  (forall (d : LazilyUnpicklingDict.t K V) key h,
     LazilyUnpicklingDict._map d !! key = None ->
     LazilyUnpicklingDict.__getitem__ loads d key h = (Raise KeyError, d, h) /\
     LazilyUnpicklingDict.__delitem__ d key = Raise KeyError) /\
  (forall (l : LazilyUnpicklingList.t V) (key : Z) h,
     (key < - Z.of_nat (length (LazilyUnpicklingList._list l)) \/
      Z.of_nat (length (LazilyUnpicklingList._list l)) <= key) ->
     LazilyUnpicklingList.__getitem__ loads l key h = (Raise IndexError, l, h) /\
     forall x, LazilyUnpicklingList.__setitem__ l key x = Raise IndexError).
Proof.
  split.
  - intros d key h Hk.
    unfold LazilyUnpicklingDict.__getitem__, LazilyUnpicklingDict.__delitem__.
    by rewrite Hk.
  - intros l key h Hout.
    assert (Hn : norm_index (length (LazilyUnpicklingList._list l)) key = None).
    { unfold norm_index. rewrite !bool_decide_eq_false_2 by lia. done. }
    unfold LazilyUnpicklingList.__getitem__, LazilyUnpicklingList.__setitem__.
    by rewrite Hn.
Qed.

(** A negative list index counts from the end: reading index [-k] is
    reading index [len - k]. *)
Theorem list_negative_index (l : LazilyUnpicklingList.t V) (k : Z) h :
  1 <= k <= Z.of_nat (length (LazilyUnpicklingList._list l)) ->
  LazilyUnpicklingList.__getitem__ loads l (- k) h
  = LazilyUnpicklingList.__getitem__ loads l
      (Z.of_nat (length (LazilyUnpicklingList._list l)) - k) h.
Proof.
  intros Hk. unfold LazilyUnpicklingList.__getitem__, norm_index.
  rewrite (bool_decide_eq_false_2 (0 <= - k < _)) by lia.
  rewrite (bool_decide_eq_true_2 (- _ <= - k < 0)) by lia.
  rewrite (bool_decide_eq_true_2 (0 <= _ - k < _)) by lia.
  by replace (- k + Z.of_nat (length (LazilyUnpicklingList._list l)))
    with (Z.of_nat (length (LazilyUnpicklingList._list l)) - k) by lia.
Qed.

Lemma dict_getitem_content (d : LazilyUnpicklingDict.t K V) key h :
  materialized loads <$>
    LazilyUnpicklingDict._map (LazilyUnpicklingDict.__getitem__ loads d key h).1.2
  = materialized loads <$> LazilyUnpicklingDict._map d.
Proof.
  unfold LazilyUnpicklingDict.__getitem__.
  destruct (LazilyUnpicklingDict._map d !! key) as [it|] eqn:Ek; [|done].
  destruct (pickled_bytes it) as [bs|] eqn:Eb.
  - simpl. rewrite fmap_insert. apply insert_id.
    rewrite lookup_fmap, Ek. simpl. f_equal.
    destruct it; simpl in *; congruence.
  - by destruct it.
Qed.

Lemma list_getitem_content (l : LazilyUnpicklingList.t V) key h :
  materialized loads <$>
    LazilyUnpicklingList._list (LazilyUnpicklingList.__getitem__ loads l key h).1.2
  = materialized loads <$> LazilyUnpicklingList._list l.
Proof.
  destruct (list_getitem_shape loads l key h)
    as [->|(i & it & bs & n & Hi & Hb & ->)]; [done|].
  rewrite list_fmap_insert. apply list_insert_id.
  rewrite list_lookup_fmap, Hi. simpl. f_equal.
  destruct it; simpl in *; congruence.
Qed.

(** Reads never change what a container stands for: after any run of
    reads, every slot of the dictionary (resp. list) stands for the
    same value as before, so key set and length are unchanged too. *)
Theorem lazy_reads_preserve_content :
  (forall keys (d : LazilyUnpicklingDict.t K V) h,
     materialized loads <$>
       LazilyUnpicklingDict._map (LazilyUnpicklingDict.read_all loads keys d h).1
     = materialized loads <$> LazilyUnpicklingDict._map d) /\
  (forall keys (l : LazilyUnpicklingList.t V) h,
     materialized loads <$>
       LazilyUnpicklingList._list (LazilyUnpicklingList.read_all loads keys l h).1
     = materialized loads <$> LazilyUnpicklingList._list l).
Proof.
  split.
  - induction keys as [|k ks IH]; intros d h; [done|]. simpl.
    pose proof (dict_getitem_content d k h) as Hc.
    destruct (LazilyUnpicklingDict.__getitem__ loads d k h) as [[r d'] h'].
    simpl in Hc. by rewrite IH.
  - induction keys as [|k ks IH]; intros l h; [done|]. simpl.
    pose proof (list_getitem_content l k h) as Hc.
    destruct (LazilyUnpicklingList.__getitem__ loads l k h) as [[r l'] h'].
    simpl in Hc. by rewrite IH.
Qed.
End lazy_more.

Section lazy_eq_more.
Import Lazy Lazy.LazilyUnpicklingListWithEqAndPersistentHashing.
Context {V : Type} (dumps : V -> string).

Lemma eq_loop_same_keys (self : t V) xs ys :
  Forall2 (fun x y => _get_eq_key self x = _get_eq_key self y) xs ys ->
  eq_loop self xs ys = true.
Proof.
  induction 1 as [|x y xs ys Hxy _ IH]; [done|]. simpl.
  by rewrite Hxy, py_eq_refl.
Qed.

(** An instance compares equal to itself and to its own pickle round
    trip: the wrappers [__getstate__] writes carry the keys the
    comparison reads. *)
Theorem lazy_list_eq_own_pickle (self : t V) :
  __eq__ self (LazyListWithEq self) = PyBool true /\
  __eq__ self (LazyListWithEq (__setstate__ self (__getstate__ dumps self)))
  = PyBool true.
Proof.
  split.
  - unfold __eq__, __len__. rewrite bool_decide_eq_true_2 by done. simpl.
    f_equal. apply eq_loop_same_keys.
    by apply Forall_Forall2_diag, Forall_forall.
  - unfold __eq__, __len__, __setstate__, __getstate__. simpl.
    rewrite !length_fmap, bool_decide_eq_true_2 by done. simpl.
    f_equal. apply eq_loop_same_keys.
    rewrite <- list_fmap_compose. apply Forall2_fmap_r.
    apply Forall_Forall2_diag, Forall_forall. intros x _. by destruct x.
Qed.
End lazy_eq_more.

Lemma dict_getstate_entries_witness :
  Lazy.LazilyUnpicklingDict.__getstate__ id Lazy.example_dict !! "k"%string
    = Some (Lazy.mkPickled "a = b") /\
  Lazy.LazilyUnpicklingDict.__getstate__ id Lazy.example_dict !! "m"%string
    = Some (Lazy.mkPickled "c = d").
Proof.
  destruct (dict_getstate_entries (K:=string) id id Lazy.example_dict)
    as (_ & H1 & H2 & _).
  split.
  - apply (H1 "k"%string (Lazy.Pickled (Lazy.mkPickled "a = b")));
      vm_compute; reflexivity.
  - apply (H2 "m"%string (Lazy.mkObj 0 "c = d"%string)).
    vm_compute. reflexivity.
Defined.

Lemma dict_setitem_then_getitem_witness :
  Lazy.LazilyUnpicklingDict._map
    (Lazy.LazilyUnpicklingDict.__setitem__ Lazy.example_dict "k"%string
       (Lazy.Value (Lazy.mkObj 7 "x = y"%string))) !! "m"%string
  = Lazy.LazilyUnpicklingDict._map Lazy.example_dict !! "m"%string.
Proof.
  apply (proj2 (dict_setitem_then_getitem (K:=string) id Lazy.example_dict
                  "k"%string (Lazy.mkObj 7 "x = y"%string) Lazy.example_heap)).
  discriminate.
Defined.

Lemma lazy_missing_slot_errors_witness :
  Lazy.LazilyUnpicklingDict.__getitem__ id Lazy.example_dict "z"%string
    Lazy.example_heap
  = (Raise KeyError, Lazy.example_dict, Lazy.example_heap) /\
  Lazy.LazilyUnpicklingList.__getitem__ id Lazy.example_list 2
    Lazy.example_heap
  = (Raise IndexError, Lazy.example_list, Lazy.example_heap).
Proof.
  destruct (lazy_missing_slot_errors (K:=string) (V:=string) id) as [Hd Hl].
  split.
  - apply Hd. vm_compute. reflexivity.
  - apply Hl. right. simpl. lia.
Defined.

Lemma list_negative_index_witness :
  Lazy.LazilyUnpicklingList.__getitem__ id Lazy.example_list (- (1))
    Lazy.example_heap
  = Lazy.LazilyUnpicklingList.__getitem__ id Lazy.example_list
      (Z.of_nat (length (Lazy.LazilyUnpicklingList._list Lazy.example_list)) - 1)
      Lazy.example_heap.
Proof.
  apply (list_negative_index id Lazy.example_list 1 Lazy.example_heap).
  simpl. lia.
Defined.

(** ** LoopyEqKeyBuilder: further properties *)

Section eq_key_more.
Import EqKey.
Context {D : Type} (kb : pyval -> D).

(** [hash_key] is memoized per instance: once it has returned a digest,
    it returns that digest again, and keeps returning it after later
    [update_for_field] and [update_for_class] calls, although [key]
    follows the updates. *)
Theorem hash_key_is_memoized (b b' : LoopyEqKeyBuilder D) (d : D) :
  hash_key kb b = Ok (d, b') ->
  hash_key kb b' = Ok (d, b') /\
  key b' = key b /\
  (forall name v,
     hash_key kb (update_for_field b' name v)
     = Ok (d, update_for_field b' name v)) /\
  (forall c,
     hash_key kb (update_for_class b' c) = Ok (d, update_for_class b' c)).
Proof.
  unfold hash_key. intros Hh.
  assert (Hm : hash_key_memo b' = Some d /\ class_ b' = class_ b /\
               field_dict b' = field_dict b).
  { destruct (hash_key_memo b) as [d0|] eqn:Em.
    - by injection Hh as <- <-.
    - destruct (hash_payload b) as [p|e]; [|done].
      simpl in Hh. by injection Hh as <- <-. }
  destruct Hm as (Hm & Hc & Hf).
  split; [by rewrite Hm|]. split.
  { unfold key, get_class. by rewrite Hc, Hf. }
  split.
  - intros name v. simpl. by rewrite Hm.
  - intros c. simpl. by rewrite Hm.
Qed.

Lemma omap_lookup_dom (m : gmap string pyval) (names : list string) :
  Forall (fun n => n ∈ dom m) names ->
  exists vals, omap (fun n => m !! n) names = vals /\
               Forall2 (fun n v => m !! n = Some v) names vals.
Proof.
  induction 1 as [|n names Hn _ (vals & <- & IH)]; [by exists []|].
  apply elem_of_dom in Hn as [v Hv]. simpl. rewrite Hv. simpl.
  eexists. split; [done|]. by constructor.
Qed.

(** The tuple [hash_key] hands to the key builder is the encoded class
    name followed by one value per field, in ascending order of the
    field names; the names themselves are not part of it. *)
Theorem hash_payload_sorted_by_name (b : LoopyEqKeyBuilder D) (c : pyclass) :
  class_ b = Some c ->
  exists vals,
    hash_payload b = Ok (VTuple (VBytes (__name__ c) :: vals)) /\
    Forall2 (fun n v => field_dict b !! n = Some v)
            (sorted_field_names b) vals /\
    Sorted str_le (sorted_field_names b) /\
    sorted_field_names b ≡ₚ elements (dom (field_dict b)).
Proof.
  intros Hc. destruct (sorted_field_names_sorted b) as [Hs Hp].
  destruct (omap_lookup_dom (field_dict b) (sorted_field_names b))
    as (vals & Hv & Hf).
  { apply Forall_forall. intros n Hn. rewrite Hp in Hn.
    by apply elem_of_elements in Hn. }
  exists vals. split; [|done].
  unfold hash_payload, get_class. rewrite Hc. simpl. by rewrite Hv.
Qed.

(** Field names do not enter the digest: two builders for the same
    class with one field each, of different names and the same value,
    return the same [hash_key], while their keys differ. *)
Theorem hash_key_ignores_field_names (c : pyclass) (n1 n2 : string)
    (v : pyval) :
  n1 <> n2 ->
  (exists d a' b',
     hash_key kb (builder_for c [(n1, v)]) = Ok (d, a') /\
     hash_key kb (builder_for c [(n2, v)]) = Ok (d, b')) /\
  keys_equal (builder_for (D:=D) c [(n1, v)]) (builder_for c [(n2, v)])
  = Ok false.
Proof.
  intros Hne.
  assert (Hp : forall n, hash_payload (builder_for (D:=D) c [(n, v)])
                         = Ok (VTuple [VBytes (__name__ c); v])).
  { intros n. unfold hash_payload, sorted_field_names, builder_for. simpl.
    rewrite insert_empty, dom_singleton_L, elements_singleton. simpl.
    by rewrite lookup_singleton_eq. }
  split.
  - exists (kb (VTuple [VBytes (__name__ c); v])).
    assert (Hh : forall n, exists b',
              hash_key kb (builder_for c [(n, v)])
              = Ok (kb (VTuple [VBytes (__name__ c); v]), b')).
    { intros n. unfold hash_key.
      change (hash_key_memo (builder_for (D:=D) c [(n, v)])) with (@None D).
      rewrite Hp. simpl. eauto. }
    destruct (Hh n1) as [a' Ha], (Hh n2) as [b' Hb]. eauto.
  - unfold keys_equal, key, get_class, eq_key_eq, dict_eq, builder_for. simpl.
    rewrite !insert_empty, !map_size_singleton, map_to_list_singleton. simpl.
    rewrite lookup_singleton_ne by done.
    by rewrite andb_false_r.
Qed.

Lemma py_eq_sym (a b : pyval) : py_eq a b = py_eq b a.
Proof.
  revert b. induction a as [|x|x|x|x|l IH] using pyval_nested_ind;
    intros [|y|y|y|y|l']; simpl; try done;
    try (apply bool_decide_ext; split; congruence).
  revert l'. induction IH as [|x l Hx _ IHl]; intros [|y l']; try done.
  by rewrite Hx, IHl.
Qed.

Lemma py_eq_trans (a b c : pyval) :
  py_eq a b = true -> py_eq b c = true -> py_eq a c = true.
Proof.
  revert b c. induction a as [|x|x|x|x|l IH] using pyval_nested_ind;
    intros [|y|y|y|y|l'] [|z|z|z|z|l'']; simpl; try done;
    rewrite ?bool_decide_eq_true;
    try (intros; subst; try done;
         repeat match goal with b : bool |- _ => destruct b end;
         simpl in *; congruence).
  revert l' l''. induction IH as [|x l Hx _ IHl]; intros [|y l'] [|z l''];
    try done.
  rewrite !andb_true_iff. intros [H1 H2] [H3 H4].
  split; [by apply (Hx y z)|by apply (IHl l' l'')].
Qed.

Lemma fields_pairwise_equal_equiv :
  (forall fa, fields_pairwise_equal fa fa) /\
  (forall fa fb, fields_pairwise_equal fa fb -> fields_pairwise_equal fb fa) /\
  (forall fa fb fc, fields_pairwise_equal fa fb ->
     fields_pairwise_equal fb fc -> fields_pairwise_equal fa fc).
Proof.
  unfold fields_pairwise_equal. split; [|split].
  - intros fa. split; [done|]. intros k va vb Ha Hb.
    assert (va = vb) by congruence. subst. apply py_eq_refl.
  - intros fa fb [Hd Hv]. split; [done|]. intros k va vb Ha Hb.
    rewrite py_eq_sym. eauto.
  - intros fa fb fc [Hd1 Hv1] [Hd2 Hv2]. split; [congruence|].
    intros k va vc Ha Hc.
    assert (Hb : k ∈ dom fb) by (rewrite <- Hd1; apply elem_of_dom; eauto).
    apply elem_of_dom in Hb as [vb Hb].
    apply py_eq_trans with vb; eauto.
Qed.

Lemma keys_equal_true (a b : LoopyEqKeyBuilder D) (ca cb : pyclass) :
  class_ a = Some ca -> class_ b = Some cb ->
  (keys_equal a b = Ok true <->
   __name__ ca = __name__ cb /\
   fields_pairwise_equal (field_dict a) (field_dict b)).
Proof.
  intros Ha Hb. rewrite keys_equal_Ok, <- dict_eq_spec. split.
  - intros (ca' & cb' & Ha' & Hb' & Heq). simplify_eq.
    symmetry in Heq. apply andb_true_iff in Heq as [Hn Hd].
    by apply bool_decide_eq_true in Hn.
  - intros [Hn Hd]. exists ca, cb. split; [done|]. split; [done|].
    by rewrite Hd, bool_decide_eq_true_2.
Qed.

(** Equality of keys is an equivalence on builders that recorded a
    class: reflexive, symmetric and transitive. *)
Theorem keys_equal_equivalence (a b c : LoopyEqKeyBuilder D) :
  is_Some (class_ a) -> is_Some (class_ b) -> is_Some (class_ c) ->
  keys_equal a a = Ok true /\
  (keys_equal a b = Ok true -> keys_equal b a = Ok true) /\
  (keys_equal a b = Ok true -> keys_equal b c = Ok true ->
   keys_equal a c = Ok true).
Proof.
  intros [ca Ha] [cb Hb] [cc Hc].
  destruct fields_pairwise_equal_equiv as (Hr & Hs & Ht).
  rewrite (keys_equal_true a a ca ca Ha Ha).
  rewrite (keys_equal_true a b ca cb Ha Hb).
  rewrite (keys_equal_true b a cb ca Hb Ha).
  rewrite (keys_equal_true b c cb cc Hb Hc).
  rewrite (keys_equal_true a c ca cc Ha Hc).
  split; [auto|]. split.
  - intros [Hn Hf]. auto.
  - intros [Hn1 Hf1] [Hn2 Hf2]. split; [congruence|eauto].
Qed.
End eq_key_more.

Lemma hash_key_is_memoized_witness :
  exists stale d,
    EqKey.builder_updated_after_hash = Ok stale /\
    EqKey.hash_key EqKey.structural_digest stale = Ok (d, stale) /\
    EqKey.hash_key EqKey.structural_digest EqKey.priority_int
    = Ok (d, EqKey.update_for_field stale "priority"%string (VInt 1)).
Proof.
  destruct (EqKey.hash_key EqKey.structural_digest EqKey.priority_int)
    as [[d b']|e] eqn:Eh; [|vm_compute in Eh; discriminate Eh].
  destruct (hash_key_is_memoized EqKey.structural_digest
              EqKey.priority_int b' d Eh) as (_ & _ & Hf & _).
  exists (EqKey.update_for_field b' "priority"%string (VInt 2)), d.
  split; [|split].
  - unfold EqKey.builder_updated_after_hash. by rewrite Eh.
  - apply Hf.
  - vm_compute in Eh. injection Eh as <- <-. vm_compute. reflexivity.
Defined.

Lemma hash_payload_sorted_by_name_witness :
  exists vals,
    EqKey.hash_payload EqKey.fields_yx
    = Ok (VTuple (VBytes "Assignment" :: vals)) /\
    Forall2 (fun n v => EqKey.field_dict EqKey.fields_yx !! n = Some v)
            (EqKey.sorted_field_names EqKey.fields_yx) vals.
Proof.
  destruct (hash_payload_sorted_by_name EqKey.fields_yx EqKey.Assignment'
              eq_refl) as (vals & H1 & H2 & _).
  exists vals. split; [exact H1|exact H2].
Defined.

Lemma hash_key_ignores_field_names_witness :
  EqKey.keys_equal
    (EqKey.builder_for (D:=EqKey.digest) EqKey.Assignment
       [("a"%string, VInt 1)])
    (EqKey.builder_for EqKey.Assignment [("b"%string, VInt 1)])
  = Ok false.
Proof.
  apply (proj2 (hash_key_ignores_field_names EqKey.structural_digest
                  EqKey.Assignment "a"%string "b"%string (VInt 1)
                  ltac:(discriminate))).
Defined.

Lemma keys_equal_equivalence_witness :
  EqKey.keys_equal EqKey.fields_yx EqKey.fields_xy = Ok true.
Proof.
  destruct (keys_equal_equivalence EqKey.fields_xy EqKey.fields_yx
              EqKey.fields_xy) as (_ & Hs & _);
    [vm_compute; eauto..|].
  apply Hs. vm_compute. reflexivity.
Defined.

(** ** Text helpers *)

Section text_facts.
Import Text.









End text_facts.


(** ** Pickling a list with keys *)

Section lazy_getstate_facts.
Import Lazy Lazy.LazilyUnpicklingListWithEqAndPersistentHashing.
Context {V : Type} (loads : string -> V) (dumps : V -> string).
Context (k : V -> pyval).

(** The instance rebuilt from [__getstate__] holds only pickled
    wrappers; when the getter's key depends on the element's value only
    and the codec round-trips, every wrapper carries the key of the
    value it unpickles to, and every slot stands for the same value as
    before. *)
Theorem getstate_entries_well_formed (self : t V) :
  (forall o, eq_key_getter self (Value o) = k (content o)) ->
  (forall v, loads (dumps v) = v) ->
  Forall (entry_wf loads k) (_list self) ->
  let self' := __setstate__ self (__getstate__ dumps self) in
  Forall (entry_wf loads k) (_list self') /\
  Forall (fun x => is_Some (pickled_bytes x)) (_list self') /\
  materialized loads <$> _list self' = materialized loads <$> _list self.
Proof.
  intros Hg Hrt Hwf. unfold __setstate__, __getstate__. simpl.
  induction Hwf as [|x xs Hx Hxs (IH1 & IH2 & IH3)]; [done|].
  simpl. split; [|split].
  - constructor; [|done]. destruct x as [p|p|o]; simpl in *; [done|done|].
    by rewrite Hg, Hrt.
  - constructor; [|done]. simpl. eauto.
  - f_equal; [|done]. destruct x as [p|p|o]; simpl in *; [done|done|].
    apply Hrt.
Qed.
End lazy_getstate_facts.

Lemma getstate_entries_well_formed_witness :
  Forall (Lazy.LazilyUnpicklingListWithEqAndPersistentHashing.entry_wf id VStr)
    (Lazy.LazilyUnpicklingListWithEqAndPersistentHashing._list
       Lazy.LazilyUnpicklingListWithEqAndPersistentHashing.insns_by_text_unpickled).
Proof.
  apply (getstate_entries_well_formed id id VStr
           Lazy.LazilyUnpicklingListWithEqAndPersistentHashing.insns_by_text).
  - intros o. reflexivity.
  - intros v. reflexivity.
  - repeat constructor.
Defined.
